(** * utrace/proc.go: the region-tracing engine

    A shallow embedding of [Proc] (package utrace) and of the breakpoint
    protocol it runs on top of a ptrace tracer: [newTracedProc], [setBreak],
    [removeBreak] and [handleInterrupt].

    Go methods with a pointer receiver mutate the [Proc] even on the paths
    that return an error, so every method is a function
    [Proc -> result * Proc]; a Go pair [(v, err)] is a pair whose second
    component is [option error] ([None] is [nil]). *)

From Stdlib Require Import ZArith Strings.Byte.
From stdpp Require Import gmap list fin_maps.

Set Warnings "-clear-no-such-hyp".

Open Scope Z_scope.

(** ** Machine integers *)

(** [uint64] arithmetic wraps around. *)
Definition wrap64 (z : Z) : Z := z mod 2 ^ 64.

(** [uintptr(pc)]: on amd64 (the only target with [unix.PtraceRegs.Rip]) a
    [uintptr] is 64 bits wide, the conversion keeps the value. *)
Definition uintptr (pc : Z) : Z := pc.

(** ** Errors *)

(** The failures of the kernel's tracing primitives. *)
Inductive errno : Type :=
  | NotTraced
  | MemoryAccess
  | RegisterAccess
  | SyscallInterrupted.

(** Go's [error] values that reach the engine.  [ErrInvalidBreakpoint] is the
    package's sentinel, [ErrInvalidState] is [errors.New("invalid state")],
    [ErrTracer] wraps what the tracer returned. *)
Inductive error : Type :=
  | ErrInvalidBreakpoint
  | ErrInvalidState
  | ErrTracer (e : errno)
  | ErrPieOffset
  | ErrRegionEndUnresolved.

(** ** The tracer handle *)

Record PtraceRegs : Type := mkRegs { Rip : Z; Rsp : Z }.

(** [var regs unix.PtraceRegs]: the zero value. *)
Definition zeroRegs : PtraceRegs := mkRegs 0 0.

Inductive syscall : Type :=
  | SysPeek (addr : Z) (len : nat)
  | SysPoke (addr : Z) (data : list byte)
  | SysGetRegs
  | SysSetRegs (regs : PtraceRegs).

(** Modelled from the spec: the tracer handle of section 4.1 (package
    utrace/ptrace is not among the sources).  The tracee is its mapped
    memory and its register file; [t_faults] schedules the outcome of the
    coming tracing calls, head first ([Some e]: the call fails with [e] and
    changes nothing), so that every operation can fail at any time;
    [t_log] records every call issued, oldest first. *)
Record Tracer : Type := mkTracer {
  t_pid : Z;
  t_mem : gmap Z byte;
  t_regs : PtraceRegs;
  t_faults : list (option errno);
  t_log : list syscall
}.

(** One tracing call: log it and consume the head of the schedule. *)
Definition tick (c : syscall) (t : Tracer) : option errno * Tracer :=
  let t' fs := mkTracer (t_pid t) (t_mem t) (t_regs t) fs (t_log t ++ [c]) in
  match t_faults t with
  | [] => (None, t' [])
  | f :: fs => (f, t' fs)
  end.

Definition set_mem (m : gmap Z byte) (t : Tracer) : Tracer :=
  mkTracer (t_pid t) m (t_regs t) (t_faults t) (t_log t).

Definition set_regs (r : PtraceRegs) (t : Tracer) : Tracer :=
  mkTracer (t_pid t) (t_mem t) r (t_faults t) (t_log t).

(** Read [n] bytes from [addr] on; [None] when one of them is unmapped. *)
Fixpoint read_bytes (m : gmap Z byte) (addr : Z) (n : nat) : option (list byte) :=
  match n with
  | O => Some []
  | S n' =>
      match m !! addr, read_bytes m (addr + 1) n' with
      | Some b, Some bs => Some (b :: bs)
      | _, _ => None
      end
  end.

(** Write [bs] from [addr] on; [None] when one of the bytes is unmapped. *)
Fixpoint write_bytes (m : gmap Z byte) (addr : Z) (bs : list byte) : option (gmap Z byte) :=
  match bs with
  | [] => Some m
  | b :: bs' =>
      match m !! addr with
      | Some _ => write_bytes (<[addr := b]> m) (addr + 1) bs'
      | None => None
      end
  end.

(** Modelled from the spec: [peek(addr, len)] of section 4.1. *)
Definition PeekData (addr : Z) (len : nat) (t : Tracer)
  : (list byte * option error) * Tracer :=
  let '(f, t1) := tick (SysPeek addr len) t in
  match f with
  | Some e => (([], Some (ErrTracer e)), t1)
  | None =>
      match read_bytes (t_mem t1) addr len with
      | Some bs => ((bs, None), t1)
      | None => (([], Some (ErrTracer MemoryAccess)), t1)
      end
  end.

(** Modelled from the spec: [poke(addr, bytes)] of section 4.1. *)
Definition PokeData (addr : Z) (data : list byte) (t : Tracer)
  : option error * Tracer :=
  let '(f, t1) := tick (SysPoke addr data) t in
  match f with
  | Some e => (Some (ErrTracer e), t1)
  | None =>
      match write_bytes (t_mem t1) addr data with
      | Some m => (None, set_mem m t1)
      | None => (Some (ErrTracer MemoryAccess), t1)
      end
  end.

(** Modelled from the spec: [get_regs()] of section 4.1.  On failure the
    caller's buffer is left as it was. *)
Definition GetRegs (t : Tracer) : (option PtraceRegs * option error) * Tracer :=
  let '(f, t1) := tick SysGetRegs t in
  match f with
  | Some e => ((None, Some (ErrTracer e)), t1)
  | None => ((Some (t_regs t1), None), t1)
  end.

(** Modelled from the spec: [set_regs(RegisterFile)] of section 4.1. *)
Definition SetRegs (regs : PtraceRegs) (t : Tracer) : option error * Tracer :=
  let '(f, t1) := tick (SysSetRegs regs) t in
  match f with
  | Some e => (Some (ErrTracer e), t1)
  | None => (None, set_regs regs t1)
  end.

(** ** Regions *)

(** Modelled from the spec: [RegionState] (declared in region.go, not among
    the sources).  A Go [int] type with the two constants; [RegionOther]
    stands for every other value, which [handleInterrupt] rejects. *)
Inductive RegionState : Type :=
  | RegionStart
  | RegionEnd
  | RegionOther.

(** Modelled from the spec: the [Region] interface of section 4.3 (declared
    in region.go, not among the sources).  [Start] is pure over the PIE
    base; [End] receives the stack pointer and sees the PIE base and the
    tracee, and may fail. *)
Record Region : Type := mkRegion {
  Start : Z -> Z;
  End : Z -> Z -> Tracer -> Z * option error
}.

(** [activeRegion], with the fields [newTracedProc] fills in. *)
Record activeRegion : Type := mkActive {
  region : Region;
  state : RegionState;
  curInterrupt : Z;
  id : nat
}.

Definition with_state (s : RegionState) (r : activeRegion) : activeRegion :=
  mkActive (region r) s (curInterrupt r) (id r).

Definition with_curInterrupt (a : Z) (r : activeRegion) : activeRegion :=
  mkActive (region r) (state r) a (id r).

(** ** The Proc *)

(** [var interrupt = []byte{0xCC}] *)
Definition interrupt : list byte := [xcc].

Record Proc : Type := mkProc {
  tracer : Tracer;
  regions : list activeRegion;
  pieOffset : Z;
  exited : bool;
  breakpoints : gmap Z (list byte)
}.

Definition with_tracer (t : Tracer) (p : Proc) : Proc :=
  mkProc t (regions p) (pieOffset p) (exited p) (breakpoints p).

Definition with_regions (rs : list activeRegion) (p : Proc) : Proc :=
  mkProc (tracer p) rs (pieOffset p) (exited p) (breakpoints p).

Definition with_breakpoints (b : gmap Z (list byte)) (p : Proc) : Proc :=
  mkProc (tracer p) (regions p) (pieOffset p) (exited p) b.

(** [setBreak(pc uint64) error], a method of the Proc. *)
Definition setBreak (pc : Z) (p : Proc) : option error * Proc :=
  let pcptr := uintptr pc in
  match breakpoints p !! pcptr with
  | Some _ => (None, p)
  | None =>
      let '((orig, err), t1) := PeekData pcptr (length interrupt) (tracer p) in
      match err with
      | Some e => (Some e, with_tracer t1 p)
      | None =>
          let '(err, t2) := PokeData pcptr interrupt t1 in
          match err with
          | Some e => (Some e, with_tracer t2 p)
          | None =>
              (None, with_breakpoints (<[pcptr := orig]> (breakpoints p))
                       (with_tracer t2 p))
          end
      end
  end.

(** [removeBreak(pc uint64) error], a method of the Proc. *)
Definition removeBreak (pc : Z) (p : Proc) : option error * Proc :=
  let pcptr := uintptr pc in
  match breakpoints p !! pcptr with
  | None => (Some ErrInvalidBreakpoint, p)
  | Some orig =>
      let '(err, t1) := PokeData pcptr orig (tracer p) in
      (err, with_breakpoints (delete pcptr (breakpoints p)) (with_tracer t1 p))
  end.

(** [type Event struct { Id int; State RegionState }] *)
Record Event : Type := mkEvent { Id : nat; State : RegionState }.

#[global] Instance RegionState_eq_dec : EqDecision RegionState.
Proof. solve_decision. Defined.

#[global] Instance Event_eq_dec : EqDecision Event.
Proof. solve_decision. Defined.

(** [p.regions[i].state = s] *)
Definition set_state (i : nat) (s : RegionState) (p : Proc) : Proc :=
  with_regions (alter (with_state s) i (regions p)) p.

(** [p.regions[i].curInterrupt = a] *)
Definition set_curInterrupt (i : nat) (a : Z) (p : Proc) : Proc :=
  with_regions (alter (with_curInterrupt a) i (regions p)) p.

(** The body of [for i, r := range p.regions] in [handleInterrupt], from
    index [i] on with [n] iterations left.  The slice is ranged over in
    place: [r] is the element the Proc holds at index [i] when iteration [i]
    starts (the slice is never resized, so the lookup cannot miss).  On every
    error path Go returns a nil event list. *)
Fixpoint handleInterrupt_loop (n i : nat) (regs : PtraceRegs)
    (events : list Event) (p : Proc) : (list Event * option error) * Proc :=
  match n with
  | O => ((events, None), p)
  | S n' =>
      match regions p !! i with
      | None => ((events, None), p)
      | Some r =>
          if decide (curInterrupt r = Rip regs) then
            let events := events ++ [mkEvent (id r) (state r)] in
            match state r with
            | RegionStart =>
                let p := set_state i RegionEnd p in
                let '(addr, err) :=
                  End (region r) (Rsp regs) (pieOffset p) (tracer p) in
                match err with
                | Some e => (([], Some e), p)
                | None =>
                    let p := set_curInterrupt i addr p in
                    let '(err, p) := setBreak addr p in
                    match err with
                    | Some e => (([], Some e), p)
                    | None => handleInterrupt_loop n' (S i) regs events p
                    end
                end
            | RegionEnd =>
                let p := set_state i RegionStart p in
                let a := Start (region r) (pieOffset p) in
                let p := set_curInterrupt i a p in
                let '(err, p) := setBreak a p in
                match err with
                | Some e => (([], Some e), p)
                | None => handleInterrupt_loop n' (S i) regs events p
                end
            | RegionOther => (([], Some ErrInvalidState), p)
            end
          else handleInterrupt_loop n' (S i) regs events p
      end
  end.

(** The local [regs] of [handleInterrupt] after [regs.Rip -= len(interrupt)]:
    what [GetRegs] delivered (the zero value when it failed), rewound. *)
Definition rewind (r : option PtraceRegs) : PtraceRegs :=
  let regs := default zeroRegs r in
  mkRegs (wrap64 (Rip regs - Z.of_nat (length interrupt))) (Rsp regs).

(** [handleInterrupt() ([]Event, error)], a method of the Proc.  The results of
    [GetRegs] and [SetRegs] are dropped, as in the source. *)
Definition handleInterrupt (p : Proc) : (list Event * option error) * Proc :=
  let '((r, _), t1) := GetRegs (tracer p) in
  let regs := rewind r in
  let '(_, t2) := SetRegs regs t1 in
  let p := with_tracer t2 p in
  let '(err, p) := removeBreak (Rip regs) p in
  match err with
  | Some e => (([], Some e), p)
  | None => handleInterrupt_loop (length (regions p)) 0 regs [] p
  end.

(** [PieOffsetter]: [PieOffset(pid) (uint64, error)]. *)
Definition PieOffsetter : Type := Z -> Z * option error.

(** Modelled from the spec: [ptrace.NewTracer(pid)] (package utrace/ptrace
    is not among the sources): a handle on the tracee [w] under [pid]. *)
Definition NewTracer (pid : Z) (w : Tracer) : Tracer :=
  mkTracer pid (t_mem w) (t_regs w) (t_faults w) (t_log w).

(** The body of [for id, r := range regions] in [newTracedProc]. *)
Fixpoint newTracedProc_loop (breaks : gmap Z (list byte)) (rs : list Region)
    (id : nat) (p : Proc) : option error * Proc :=
  match rs with
  | [] => (None, p)
  | r :: rs' =>
      let addr := uintptr (Start r (pieOffset p)) in
      let '(err, p) :=
        match breaks !! addr with
        | Some orig =>
            (None, with_breakpoints (<[addr := orig]> (breakpoints p)) p)
        | None => setBreak (Start r (pieOffset p)) p
        end in
      match err with
      | Some e => (Some e, p)
      | None =>
          newTracedProc_loop breaks rs' (S id)
            (with_regions
               (regions p ++ [mkActive r RegionStart (Start r (pieOffset p)) id])
               p)
      end
  end.

(** [newTracedProc] up to its return: the error, and the Proc as the loop
    left it (Go drops it when the error is not nil; the tracee keeps what was
    done to it).  A nil [breaks] reads like the empty map. *)
Definition newTracedProc_run (pid : Z) (pie : PieOffsetter)
    (rs : list Region) (breaks : gmap Z (list byte)) (w : Tracer)
  : option error * Proc :=
  let '(off, err) := pie pid in
  let p := mkProc (NewTracer pid w) [] off false ∅ in
  match err with
  | Some e => (Some e, mkProc (NewTracer pid w) [] 0 false ∅)
  | None => newTracedProc_loop breaks rs 0 p
  end.

(** [func newTracedProc(pid int, pie PieOffsetter, regions []Region,
    breaks map[uintptr][]byte)], returning the Proc and the error. *)
Definition newTracedProc (pid : Z) (pie : PieOffsetter)
    (rs : list Region) (breaks : gmap Z (list byte)) (w : Tracer)
  : option Proc * option error :=
  match newTracedProc_run pid pie rs breaks w with
  | (Some e, _) => (None, Some e)
  | (None, p) => (Some p, None)
  end.

(** ** The supervisor's view *)

(** Between two traps the tracee runs: when the next trap is observed the
    tracee is in some state [w] the engine does not control. *)
Definition resume (w : Tracer) (p : Proc) : Proc := with_tracer w p.

(** The engine driven over a sequence of traps, each observed with the
    tracee in the state given; the results of [handleInterrupt] in order. *)
Fixpoint run (ws : list Tracer) (p : Proc)
  : list (list Event * option error) * Proc :=
  match ws with
  | [] => ([], p)
  | w :: ws' =>
      let '(out, p1) := handleInterrupt (resume w p) in
      let '(outs, p2) := run ws' p1 in
      (out :: outs, p2)
  end.

(** All the events delivered to the supervisor, in order. *)
Definition emitted (outs : list (list Event * option error)) : list Event :=
  concat (map fst outs).

(** The states of the events that carry the id [i]. *)
Definition states_of (i : nat) (evs : list Event) : list RegionState :=
  State <$> filter (λ e, Id e = i) evs.

(** ** Region descriptors used in the scenarios *)

Definition le_uint64 (bs : list byte) : Z :=
  foldr (λ b acc, Z.of_N (Byte.to_N b) + 256 * acc) 0 bs.

(** Modelled from the spec: the typical region of section 4.3 (region.go is
    not among the sources): [Start] is [pie_offset + symbol_offset], [End]
    reads one pointer-sized word from [[sp]] in the tracee. *)
Definition funcRegion (addr : Z) : Region :=
  mkRegion (λ pie, wrap64 (addr + pie))
    (λ sp _ t,
      match read_bytes (t_mem t) sp 8 with
      | Some bs => (le_uint64 bs, None)
      | None => (0, Some ErrRegionEndUnresolved)
      end).

(** The register file [handleInterrupt] works with on the Proc [p], and the
    address of the trap it handles. *)
Definition trap_regs (p : Proc) : PtraceRegs :=
  rewind (fst (fst (GetRegs (tracer p)))).

Definition trap_pc (p : Proc) : Z := Rip (trap_regs p).

(** [GetRegs] and [SetRegs], as [handleInterrupt] issues them on [p], both
    return a nil error. *)
Definition regs_access_ok (p : Proc) : Prop :=
  snd (fst (GetRegs (tracer p))) = None ∧
  fst (SetRegs (trap_regs p) (snd (GetRegs (tracer p)))) = None.


(** ** Vocabulary of the statements *)

(** The event a region emits when its trap fires. *)
Definition event_of (r : activeRegion) : Event := mkEvent (id r) (state r).

(** The regions of a list armed at [pc], in order. *)
Definition armed_at (pc : Z) (rs : list activeRegion) : list activeRegion :=
  filter (λ r, curInterrupt r = pc) rs.

(** [r'] is [r] after its transition on a trap: from [RegionStart] to
    [RegionEnd] at the address its [End] function gave for the stack pointer
    [sp] on the tracee [t], from [RegionEnd] to [RegionStart] at its [Start]
    address. *)
Definition rearmed (sp pie : Z) (t : Tracer) (r r' : activeRegion) : Prop :=
  id r' = id r ∧ region r' = region r ∧
  match state r with
  | RegionStart =>
      state r' = RegionEnd ∧
      End (region r) sp pie t = (curInterrupt r', None)
  | RegionEnd =>
      state r' = RegionStart ∧ curInterrupt r' = Start (region r) pie
  | RegionOther => False
  end.

(** What a completed run of the loop from index [i] on has done: [evs']
    extends [evs] by the events of the regions armed at the trap address, in
    order; the regions below [i] are as they were, each region from [i] on
    is rearmed when it was armed at the trap address (its [End] function
    seeing the tracee as the loop had left it on reaching the region) and
    untouched otherwise; the table only grew, by the addresses just armed. *)
Definition loop_post (i : nat) (regs : PtraceRegs) (evs : list Event)
    (p : Proc) (evs' : list Event) (p' : Proc) : Prop :=
  evs' = evs ++ (event_of <$> armed_at (Rip regs) (drop i (regions p))) ∧
  (∀ j, (j < i)%nat → regions p' !! j = regions p !! j) ∧
  (∀ j r, (i ≤ j)%nat → regions p !! j = Some r →
     ∃ r', regions p' !! j = Some r' ∧
       if decide (curInterrupt r = Rip regs)
       then rearmed (Rsp regs) (pieOffset p)
              (tracer (snd (handleInterrupt_loop (j - i) i regs evs p))) r r' ∧
            is_Some (breakpoints p' !! curInterrupt r')
       else r' = r) ∧
  breakpoints p ⊆ breakpoints p' ∧
  (∀ a, is_Some (breakpoints p' !! a) →
     is_Some (breakpoints p !! a) ∨
     ∃ j r r', (i ≤ j)%nat ∧ regions p !! j = Some r ∧
       curInterrupt r = Rip regs ∧
       regions p' !! j = Some r' ∧ curInterrupt r' = a).

(** The Proc once [handleInterrupt] has read, rewound and written back the
    register file. *)
Definition rewound (p : Proc) : Proc :=
  with_tracer (snd (SetRegs (trap_regs p) (snd (GetRegs (tracer p))))) p.

(** The Proc as [handleInterrupt] has it when its loop reaches the region of
    index [i]: the breakpoint at the trap address removed, the regions
    before [i] gone through. *)
Definition proc_before (i : nat) (p : Proc) : Proc :=
  snd (handleInterrupt_loop i 0 (trap_regs p) []
         (snd (removeBreak (trap_pc p) (rewound p)))).

(** Every region is armed at a key of the table and every key of the table
    is the armed address of a region. *)
Definition armed_inv (p : Proc) : Prop :=
  dom (breakpoints p) = list_to_set (curInterrupt <$> regions p).

(** The complementary state. *)
Definition flip (s : RegionState) : RegionState :=
  match s with
  | RegionStart => RegionEnd
  | RegionEnd => RegionStart
  | RegionOther => RegionOther
  end.

(** [l] reads [s], [flip s], [s], ... *)
Fixpoint alternating (s : RegionState) (l : list RegionState) : Prop :=
  match l with
  | [] => True
  | x :: l' => x = s ∧ alternating (flip s) l'
  end.

(** Every call of the run returned a nil error. *)
Definition completed (outs : list (list Event * option error)) : Prop :=
  Forall (λ out, snd out = None) outs.

(** The address a tracing call reads or writes. *)
Definition syscall_addr (c : syscall) : option Z :=
  match c with
  | SysPeek a _ | SysPoke a _ => Some a
  | SysGetRegs | SysSetRegs _ => None
  end.

(** ** Scenarios *)

(** Modelled from the spec: a region over a static range (section 4.3
    permits it; region.go is not among the sources): both addresses are
    offsets from the PIE base. *)
Definition addressRegion (start stop : Z) : Region :=
  mkRegion (λ pie, wrap64 (start + pie))
    (λ _ pie _, (wrap64 (stop + pie), None)).

(** A tracee: a function at 0x401000, called from 0x40122f so that it
    returns to 0x401234, code up to 0x401300, and one stack slot at
    0x7ffe0000 that holds the return address. *)
Definition image : gmap Z byte :=
  list_to_map
    [(4198400, x55); (4198964, x90); (4199168, xc3);
     (2147352576, x34); (2147352577, x12); (2147352578, x40);
     (2147352579, x00); (2147352580, x00); (2147352581, x00);
     (2147352582, x00); (2147352583, x00)].

Definition tracee0 : Tracer := mkTracer 0 image zeroRegs [] [].

Definition pie0 : PieOffsetter := λ _, (0, None).

(** The tracee of [p] stopped with the registers [rip] and [sp], its memory
    as [p] left it, the coming tracing calls failing as [faults] says. *)
Definition stopped (rip sp : Z) (faults : list (option errno)) (p : Proc)
  : Tracer :=
  mkTracer (t_pid (tracer p)) (t_mem (tracer p)) (mkRegs rip sp) faults
    (t_log (tracer p)).

(** S1: one function region, attached without inherited breakpoints. *)
Definition proc_S1 : Proc :=
  snd (newTracedProc_run 7 pie0 [funcRegion 4198400] ∅ tracee0).

(** S1 at its first trap, the breakpoint at 0x401000 just executed. *)
Definition trap_S1 : Proc :=
  resume (stopped 4198401 2147352576 [] proc_S1) proc_S1.

(** S3: two regions that share their Start address. *)
Definition proc_S3 : Proc :=
  snd (newTracedProc_run 7 pie0
         [funcRegion 4198400; addressRegion 4198400 4199168] ∅ tracee0).

Definition trap_S3 : Proc :=
  resume (stopped 4198401 2147352576 [] proc_S3) proc_S3.

(** S4: the stack pointer is not mapped when the region is entered, so the
    End function fails. *)
Definition trap_S4 : Proc :=
  resume (stopped 4198401 0 [] proc_S1) proc_S1.

(** S1 at its first trap when the tracee has died: every tracing call fails. *)
Definition trap_dead : Proc :=
  resume (stopped 4198401 2147352576
            [Some NotTraced; Some NotTraced; Some NotTraced] proc_S1) proc_S1.

(** S1 at its first trap when writing the register file back fails. *)
Definition trap_setregs_fails : Proc :=
  resume (stopped 4198401 2147352576 [None; Some RegisterAccess] proc_S1)
    proc_S1.

(** S1 at its first trap when reading the register file fails. *)
Definition trap_getregs_fails : Proc :=
  resume (stopped 4198401 2147352576 [Some RegisterAccess] proc_S1) proc_S1.

(** S1 when restoring the original byte fails. *)
Definition unpatch_fails : Proc :=
  resume (stopped 4198400 2147352576 [Some MemoryAccess] proc_S1) proc_S1.

(** S1 after its first trap, and the two traps of one call of the function:
    the entry, then the return to 0x401234 with the stack popped. *)
Definition after_S1 : Proc := snd (handleInterrupt trap_S1).

Definition traps_S1 : list Tracer :=
  [stopped 4198401 2147352576 [] proc_S1;
   stopped 4198965 2147352584 [] after_S1].

(** S5: a child that inherits the patched address space of its parent, and
    the parent's map with the byte saved for the Start address. *)
Definition tracee_S5 : Tracer :=
  mkTracer 0 (<[4198400 := xcc]> image) zeroRegs [] [].

Definition breaks_S5 : gmap Z (list byte) := {[ 4198400 := [x48] ]}.

(** A child forked while its parent was inside the function: the parent had
    removed the Start breakpoint and armed the return address, and that is
    what its map and the inherited memory hold. *)
Definition tracee_fork : Tracer :=
  mkTracer 0 (<[4198964 := xcc]> image) zeroRegs [] [].

Definition breaks_fork : gmap Z (list byte) := {[ 4198964 := [x90] ]}.

(** ** Continuation and exit *)

(** Modelled from the spec: the calls of the tracer handle of section 4.1
    that let the tracee go (package utrace/ptrace is not among the sources).
    What the tracee does once resumed is not the engine's, so the two calls
    are an interface: each returns its error and the tracee as it finds it
    next. *)
Class TracerControl : Type := {
  Listen : Tracer → option error * Tracer;
  Cont : Z → Tracer → option error * Tracer
}.

(** [cont(sig unix.Signal, groupStop bool) error], a method of the Proc. *)
Definition cont `{TracerControl} (sig : Z) (groupStop : bool) (p : Proc)
  : option error * Proc :=
  if exited p then (None, p)
  else if groupStop then
    let '(err, t) := Listen (tracer p) in (err, with_tracer t p)
  else
    let '(err, t) := Cont sig (tracer p) in (err, with_tracer t p).

(** [exit()], a method of the Proc: [p.exited = true]. *)
Definition exit (p : Proc) : Proc :=
  mkProc (tracer p) (regions p) (pieOffset p) true (breakpoints p).

(** Modelled from the spec: [pid()] of section 4.1, which [Pid()] of the
    Proc returns. *)
Definition Pid (p : Proc) : Z := t_pid (tracer p).

(** A tracer whose resuming calls follow the schedule of faults and leave
    the tracee as it is. *)
Definition consume (t : Tracer) : option error * Tracer :=
  match t_faults t with
  | [] => (None, t)
  | f :: fs =>
      (ErrTracer <$> f,
       mkTracer (t_pid t) (t_mem t) (t_regs t) fs (t_log t))
  end.

Definition scheduled_control : TracerControl :=
  {| Listen := consume; Cont := λ _, consume |}.

(** ** Vocabulary of the further properties *)

(** The table and the tracee agree: every entry saves one byte, and the
    tracee holds the trap opcode at its address. *)
Definition patched (p : Proc) : Prop :=
  ∀ a o, breakpoints p !! a = Some o →
    length o = 1%nat ∧ t_mem (tracer p) !! a = Some xcc.

(** The byte of the tracee's program at [x], beneath the breakpoints: the
    saved byte where a breakpoint is installed, the memory elsewhere. *)
Definition text_at (p : Proc) (x : Z) : option byte :=
  match breakpoints p !! x with
  | Some (b :: _) => Some b
  | _ => t_mem (tracer p) !! x
  end.

(** Restoring the saved bytes at the trap address, when there are any,
    succeeds. *)
Definition unpatch_ok (p : Proc) : Prop :=
  ∀ o, breakpoints p !! trap_pc p = Some o →
    fst (PokeData (trap_pc p) o (tracer (rewound p))) = None.

(** Two regions, the second of which starts at an address that is not
    mapped in the tracee. *)
Definition regions_unmapped : list Region :=
  [funcRegion 4198400; funcRegion 1].

(** The map handed to [newTracedProc] fits the tracee: every entry saved
    one byte, at an address where the tracee holds the trap opcode. *)
Definition inherited_ok (breaks : gmap Z (list byte)) (w : Tracer) : Prop :=
  ∀ a o, breaks !! a = Some o →
    length o = 1%nat ∧ t_mem w !! a = Some xcc.

(** ** Runs with a failed call *)

(** Two functions, the second of which starts at 0x401234, where the first
    returns to: both regions are armed there once the first is entered. *)
Definition proc_shared : Proc :=
  snd (newTracedProc_run 7 pie0 [funcRegion 4198400; funcRegion 4198964]
         ∅ tracee0).

(** Three traps of [proc_shared]: the entry of the first function; the trap
    at 0x401234 with a stack pointer that is not mapped, so that the End
    function of the second region fails after the first region was gone
    through; the entry of the first function again. *)
Definition shared_1 : Proc :=
  snd (handleInterrupt
         (resume (stopped 4198401 2147352576 [] proc_shared) proc_shared)).

Definition shared_2 : Proc :=
  snd (handleInterrupt (resume (stopped 4198965 0 [] shared_1) shared_1)).

Definition traps_shared : list Tracer :=
  [stopped 4198401 2147352576 [] proc_shared;
   stopped 4198965 0 [] shared_1;
   stopped 4198401 2147352576 [] shared_2].

(** A function at 0x401000 and a static range from 0x401234 to 0x401300. *)
Definition proc_two : Proc :=
  snd (newTracedProc_run 7 pie0
         [funcRegion 4198400; addressRegion 4198964 4199168] ∅ tracee0).

(** Two traps of [proc_two]: the entry of the function with a stack pointer
    that is not mapped, so that its End function fails; then the Start of
    the range, which is handled without error. *)
Definition two_1 : Proc :=
  snd (handleInterrupt (resume (stopped 4198401 0 [] proc_two) proc_two)).

Definition traps_two : list Tracer :=
  [stopped 4198401 0 [] proc_two;
   stopped 4198965 2147352576 [] two_1].

(** One trap of S3, the entry of the function the two regions share. *)
Definition traps_S3 : list Tracer :=
  [stopped 4198401 2147352576 [] proc_S3].
(** * Properties *)

(** ** The tracer: what each call leaves untouched *)

(** A pair from its first component. *)
Lemma pair_eta {A B : Type} (x : A * B) (a : A) : fst x = a → x = (a, snd x).
Proof. intros <-. by destruct x. Qed.

Section TracerFrame.

Lemma tick_frame c t f t' :
  tick c t = (f, t') →
  t_mem t' = t_mem t ∧ t_regs t' = t_regs t ∧ t_log t' = t_log t ++ [c].
Proof.
  unfold tick. destruct (t_faults t); intros [= <- <-]; done.
Qed.

Lemma PeekData_frame addr n t r t' :
  PeekData addr n t = (r, t') →
  t_mem t' = t_mem t ∧ t_regs t' = t_regs t ∧
  t_log t' = t_log t ++ [SysPeek addr n].
Proof.
  unfold PeekData. destruct (tick _ t) as [f t1] eqn:Ht.
  apply tick_frame in Ht.
  destruct f; [intros [= <- <-]; done|].
  destruct (read_bytes _ _ _); intros [= <- <-]; done.
Qed.

Lemma PokeData_frame addr d t e t' :
  PokeData addr d t = (e, t') →
  t_regs t' = t_regs t ∧ t_log t' = t_log t ++ [SysPoke addr d] ∧
  (e ≠ None → t_mem t' = t_mem t).
Proof.
  unfold PokeData. destruct (tick _ t) as [f t1] eqn:Ht.
  apply tick_frame in Ht. destruct Ht as (Hm & Hr & Hl).
  destruct f; [intros [= <- <-]; done|].
  destruct (write_bytes _ _ _); intros [= <- <-]; simpl; done.
Qed.

Lemma write_bytes_below bs : ∀ m a m' x,
  write_bytes m a bs = Some m' → x < a → m' !! x = m !! x.
Proof.
  induction bs as [|b bs IH]; simpl; intros m a m' x.
  - by intros [= <-].
  - destruct (m !! a); [|done]. intros Hw Hx.
    rewrite (IH _ _ _ x Hw); [|lia]. apply lookup_insert_ne. lia.
Qed.

(** What was written can be read back. *)
Lemma read_write_bytes bs : ∀ m a m',
  write_bytes m a bs = Some m' → read_bytes m' a (length bs) = Some bs.
Proof.
  induction bs as [|b bs IH]; simpl; intros m a m'; [done|].
  destruct (m !! a); [|done]. intros Hw.
  rewrite (write_bytes_below _ _ _ _ a Hw); [|lia].
  rewrite lookup_insert_eq. by rewrite (IH _ _ _ Hw).
Qed.

Lemma PokeData_ok_read addr d t t' :
  PokeData addr d t = (None, t') →
  read_bytes (t_mem t') addr (length d) = Some d.
Proof.
  unfold PokeData. destruct (tick _ t) as [f t1].
  destruct f; [done|].
  destruct (write_bytes _ _ _) eqn:Hw; [|done].
  intros [= <-]. simpl. by eapply read_write_bytes.
Qed.

End TracerFrame.

(** ** [setBreak] and [removeBreak] *)

Section Breakpoints.

Lemma setBreak_present a p :
  is_Some (breakpoints p !! a) → setBreak a p = (None, p).
Proof. intros [o Ho]. unfold setBreak, uintptr. by rewrite Ho. Qed.

(** Everything [setBreak] can do to the Proc. *)
Lemma setBreak_frame a p e p' :
  setBreak a p = (e, p') →
  regions p' = regions p ∧ pieOffset p' = pieOffset p ∧
  exited p' = exited p ∧
  t_regs (tracer p') = t_regs (tracer p) ∧
  (∃ l, t_log (tracer p') = t_log (tracer p) ++ l) ∧
  match e with
  | None =>
      is_Some (breakpoints p' !! a) ∧
      ((is_Some (breakpoints p !! a) ∧ p' = p) ∨
       (breakpoints p !! a = None ∧
        ∃ orig, breakpoints p' = <[a := orig]> (breakpoints p)))
  | Some _ => breakpoints p' = breakpoints p ∧ breakpoints p !! a = None
  end.
Proof.
  unfold setBreak, uintptr.
  destruct (breakpoints p !! a) as [o|] eqn:Ho.
  { intros [= <- <-]. split_and!; eauto. by exists []; rewrite app_nil_r. }
  destruct (PeekData _ _ _) as [[orig err] t1] eqn:Hpeek.
  apply PeekData_frame in Hpeek as (_ & Hr1 & Hl1).
  destruct err.
  { intros [= <- <-]. simpl. split_and!; eauto. }
  destruct (PokeData _ _ _) as [err t2] eqn:Hpoke.
  apply PokeData_frame in Hpoke as (Hr2 & Hl2 & _).
  assert (∃ l, t_log t2 = t_log (tracer p) ++ l) as Hlog.
  { eexists. rewrite Hl2, Hl1, <-app_assoc. done. }
  destruct err; intros [= <- <-]; simpl.
  - split_and!; eauto; congruence.
  - split_and!; eauto; [congruence|].
    rewrite lookup_insert_eq. eauto.
Qed.

Lemma removeBreak_frame a p e p' :
  removeBreak a p = (e, p') →
  regions p' = regions p ∧ pieOffset p' = pieOffset p ∧
  exited p' = exited p ∧
  t_regs (tracer p') = t_regs (tracer p) ∧
  (∃ l, t_log (tracer p') = t_log (tracer p) ++ l) ∧
  (e = None → breakpoints p' = delete a (breakpoints p) ∧
              is_Some (breakpoints p !! a)).
Proof.
  unfold removeBreak, uintptr.
  destruct (breakpoints p !! a) as [o|] eqn:Ho.
  - destruct (PokeData _ _ _) as [err t1] eqn:Hpoke.
    apply PokeData_frame in Hpoke as (Hr & Hl & _).
    intros [= <- <-]. simpl. split_and!; eauto.
  - intros [= <- <-]. split_and!; eauto; [|done].
    by exists []; rewrite app_nil_r.
Qed.

End Breakpoints.

(** ** The loop of [handleInterrupt] *)

Section Loop.

Lemma regions_set_state i s p :
  regions (set_state i s p) = alter (with_state s) i (regions p).
Proof. done. Qed.

Lemma regions_set_curInterrupt i a p :
  regions (set_curInterrupt i a p) = alter (with_curInterrupt a) i (regions p).
Proof. done. Qed.

(** One region rearmed at [a] in state [s], the way both branches of the
    switch do it. *)
Lemma arm_frame i s a p p3 r :
  regions p !! i = Some r →
  setBreak a (set_curInterrupt i a (set_state i s p)) = (None, p3) →
  regions p3 = <[i := mkActive (region r) s a (id r)]> (regions p) ∧
  pieOffset p3 = pieOffset p ∧
  t_regs (tracer p3) = t_regs (tracer p) ∧
  (∃ l, t_log (tracer p3) = t_log (tracer p) ++ l) ∧
  breakpoints p ⊆ breakpoints p3 ∧
  is_Some (breakpoints p3 !! a) ∧
  (∀ x, is_Some (breakpoints p3 !! x) → is_Some (breakpoints p !! x) ∨ x = a).
Proof.
  intros Hi Hs. apply setBreak_frame in Hs as (Hr & Hpie & _ & Hregs & Hlog & Hin & Hb).
  split_and!; try done.
  - rewrite Hr. simpl.
    apply list_eq. intros j. destruct (decide (i = j)) as [<-|Hne].
    + rewrite !list_lookup_alter_eq, Hi. simpl.
      symmetry. apply list_lookup_insert_eq. by eapply lookup_lt_Some.
    + rewrite !list_lookup_alter_ne, list_lookup_insert_ne; done.
  - destruct Hb as [[_ ->]|[Hn [orig ->]]]; [done|].
    by apply insert_subseteq.
  - intros x Hx. destruct Hb as [[_ ->]|[Hn [orig Ho]]]; [by left|].
    rewrite Ho in Hx. destruct (decide (a = x)) as [->|Hne]; [by right|].
    rewrite lookup_insert_ne in Hx; auto.
Qed.

(** What the loop leaves alone, whatever it returns. *)
Lemma loop_frame n : ∀ i regs evs p out p',
  handleInterrupt_loop n i regs evs p = (out, p') →
  length (regions p') = length (regions p) ∧
  pieOffset p' = pieOffset p ∧
  t_regs (tracer p') = t_regs (tracer p) ∧
  (∃ l, t_log (tracer p') = t_log (tracer p) ++ l).
Proof.
  assert (∀ p, ∃ l, t_log (tracer p) = t_log (tracer p) ++ l) as Hnil.
  { intros p. by exists []; rewrite app_nil_r. }
  assert (∀ a p e p3 q, setBreak a p = (e, p3) →
    length (regions q) = length (regions p3) ∧ pieOffset q = pieOffset p3 ∧
    t_regs (tracer q) = t_regs (tracer p3) ∧
    (∃ l, t_log (tracer q) = t_log (tracer p3) ++ l) →
    length (regions q) = length (regions p) ∧ pieOffset q = pieOffset p ∧
    t_regs (tracer q) = t_regs (tracer p) ∧
    (∃ l, t_log (tracer q) = t_log (tracer p) ++ l)) as Hchain.
  { intros a p e p3 q Hs (Hlen & Hpie & Hregs & [l Hl]).
    apply setBreak_frame in Hs as (Hr & Hpie' & _ & Hregs' & [l' Hl'] & _).
    split_and!; try congruence.
    exists (l' ++ l). by rewrite Hl, Hl', app_assoc. }
  induction n as [|n IH]; intros i regs evs p out p'; simpl.
  { intros [= <- <-]. auto. }
  destruct (regions p !! i) as [r|]; [|intros [= <- <-]; auto].
  destruct (decide _) as [Heq|Hne]; [|apply IH].
  destruct (state r).
  - destruct (End _ _ _ _) as [addr [e0|]].
    { intros [= <- <-]. simpl. rewrite length_alter. auto. }
    destruct (setBreak _ _) as [[e|] p3] eqn:Hs; intros Hq.
    + injection Hq as <- <-.
      apply setBreak_frame in Hs as (Hr & Hpie' & _ & Hregs' & Hl & _).
      rewrite Hr. simpl. rewrite !length_alter. auto.
    + apply IH in Hq. eapply Hchain in Hq; [|exact Hs].
      simpl in Hq. by rewrite !length_alter in Hq.
  - destruct (setBreak _ _) as [[e|] p3] eqn:Hs; intros Hq.
    + injection Hq as <- <-.
      apply setBreak_frame in Hs as (Hr & Hpie' & _ & Hregs' & Hl & _).
      rewrite Hr. simpl. rewrite !length_alter. auto.
    + apply IH in Hq. eapply Hchain in Hq; [|exact Hs].
      simpl in Hq. by rewrite !length_alter in Hq.
  - intros [= <- <-]. auto.
Qed.

Lemma loop_post_done i regs evs p :
  (length (regions p) ≤ i)%nat → loop_post i regs evs p evs p.
Proof.
  intros Hi. unfold loop_post, armed_at. rewrite drop_ge by done.
  split_and!.
  - by rewrite app_nil_r.
  - done.
  - intros j r Hj Hr. apply lookup_lt_Some in Hr. lia.
  - done.
  - auto.
Qed.

Lemma loop_post_skip i regs evs p r evs' p' :
  regions p !! i = Some r → curInterrupt r ≠ Rip regs →
  loop_post (S i) regs evs p evs' p' → loop_post i regs evs p evs' p'.
Proof.
  intros Hi Hne (Hev & Hlt & Hge & Hsub & Hdom).
  unfold loop_post, armed_at. rewrite (drop_S _ _ _ Hi).
  rewrite filter_cons_False by done. split_and!.
  - done.
  - intros j Hj. apply Hlt. lia.
  - intros j rj Hj Hrj. destruct (decide (j = i)) as [->|Hji].
    + replace rj with r by congruence. exists r.
      rewrite Hlt by lia. split; [done|]. by rewrite decide_False.
    + replace (j - i)%nat with (S (j - S i)) by lia. simpl.
      rewrite Hi, decide_False by done. apply Hge; [lia|done].
  - done.
  - intros a Ha. destruct (Hdom a Ha) as [?|(j & rj & rj' & ? & ?)]; [by left|].
    right. exists j, rj, rj'. split; [lia|done].
Qed.

Lemma loop_post_arm i regs evs p r s a p3 evs' p' :
  regions p !! i = Some r → curInterrupt r = Rip regs →
  rearmed (Rsp regs) (pieOffset p) (tracer p) r
    (mkActive (region r) s a (id r)) →
  setBreak a (set_curInterrupt i a (set_state i s p)) = (None, p3) →
  (∀ m, handleInterrupt_loop (S m) i regs evs p
        = handleInterrupt_loop m (S i) regs (evs ++ [event_of r]) p3) →
  loop_post (S i) regs (evs ++ [event_of r]) p3 evs' p' →
  loop_post i regs evs p evs' p'.
Proof.
  intros Hi Heq Hre Hs Hnext (Hev & Hlt & Hge & Hsub & Hdom).
  destruct (arm_frame _ _ _ _ _ _ Hi Hs)
    as (Hr3 & Hpie3 & _ & _ & Hsub3 & Hin3 & Hdom3).
  rewrite Hr3, Hpie3 in *.
  assert (i < length (regions p))%nat as Hlen by by eapply lookup_lt_Some.
  unfold loop_post, armed_at. rewrite (drop_S _ _ _ Hi).
  rewrite filter_cons_True by done. split_and!.
  - rewrite Hev, drop_insert_lt by lia.
    unfold armed_at. rewrite fmap_cons, <-app_assoc. done.
  - intros j Hj. rewrite Hlt by lia. apply list_lookup_insert_ne. lia.
  - intros j rj Hj Hrj. destruct (decide (j = i)) as [->|Hji].
    + replace rj with r by congruence. eexists.
      rewrite Hlt by lia. rewrite list_lookup_insert_eq by done.
      split; [done|]. rewrite decide_True by done.
      rewrite Nat.sub_diag. split; [done|].
      simpl. by eapply lookup_weaken_is_Some.
    + replace (j - i)%nat with (S (j - S i)) by lia. rewrite Hnext.
      apply Hge; [lia|]. rewrite list_lookup_insert_ne by done. done.
  - by etrans.
  - intros x Hx. destruct (Hdom x Hx) as [Hx3|(j & rj & rj' & Hj & Hrj & ?)].
    + destruct (Hdom3 x Hx3) as [?| ->]; [by left|].
      right. exists i, r, (mkActive (region r) s a (id r)).
      split_and!; [lia|done|done| |done].
      rewrite Hlt by lia. by rewrite list_lookup_insert_eq.
    + right. exists j, rj, rj'. split; [lia|].
      rewrite list_lookup_insert_ne in Hrj by lia. done.
Qed.

(** The loop, when it runs to its end without an error. *)
Lemma loop_ok n : ∀ i regs evs p evs' p',
  handleInterrupt_loop n i regs evs p = ((evs', None), p') →
  (i + n)%nat = length (regions p) →
  loop_post i regs evs p evs' p'.
Proof.
  induction n as [|n IH]; intros i regs evs p evs' p'; simpl.
  { intros [= <- <-] Hn. apply loop_post_done. lia. }
  intros Hq Hn.
  destruct (regions p !! i) as [r|] eqn:Hi; cycle 1.
  { apply lookup_ge_None in Hi. lia. }
  destruct (decide _) as [Heq|Hne]; cycle 1.
  { eapply loop_post_skip; [done..|]. apply IH; [done|lia]. }
  destruct (state r) eqn:Hst; [| |by inversion Hq].
  - destruct (End _ _ _ _) as [addr [e0|]] eqn:HE; [by inversion Hq|].
    destruct (setBreak _ _) as [[e|] p3] eqn:Hs; [by inversion Hq|].
    apply (loop_post_arm i regs evs p r RegionEnd addr p3);
      [exact Hi|exact Heq| |exact Hs| |].
    + unfold rearmed. rewrite Hst. simpl. eauto.
    + intros m. simpl. rewrite Hi, decide_True by done.
      rewrite Hst. simpl. rewrite HE, Hs. unfold event_of. by rewrite Hst.
    + apply IH; [unfold event_of; rewrite Hst; exact Hq|].
      apply setBreak_frame in Hs as (-> & _). simpl.
      rewrite !length_alter. lia.
  - destruct (setBreak _ _) as [[e|] p3] eqn:Hs; [by inversion Hq|].
    apply (loop_post_arm i regs evs p r RegionStart
             (Start (region r) (pieOffset p)) p3);
      [exact Hi|exact Heq| |exact Hs| |].
    + unfold rearmed. rewrite Hst. simpl. eauto.
    + intros m. simpl. rewrite Hi, decide_True by done.
      rewrite Hst. simpl. rewrite Hs. unfold event_of. by rewrite Hst.
    + apply IH; [unfold event_of; rewrite Hst; exact Hq|].
      apply setBreak_frame in Hs as (-> & _). simpl.
      rewrite !length_alter. lia.
Qed.

(** The regions outside of the range the loop runs over are untouched,
    whatever it returns. *)
Lemma loop_untouched n : ∀ i regs evs p out p' j,
  handleInterrupt_loop n i regs evs p = (out, p') →
  (j < i ∨ i + n ≤ j)%nat → regions p' !! j = regions p !! j.
Proof.
  assert (∀ a i s p e p3 j, i ≠ j →
    setBreak a (set_curInterrupt i a (set_state i s p)) = (e, p3) →
    regions p3 !! j = regions p !! j) as Harm.
  { intros a i s p e p3 j Hne Hs.
    apply setBreak_frame in Hs as (-> & _). simpl.
    by rewrite !list_lookup_alter_ne. }
  induction n as [|n IH]; intros i regs evs p out p' j; simpl.
  { by intros [= <- <-]. }
  destruct (regions p !! i) as [r|]; [|by intros [= <- <-]].
  destruct (decide _) as [Heq|Hne]; [|intros H Hj; eapply IH; [done|lia]].
  destruct (state r).
  - destruct (End _ _ _ _) as [addr [e0|]].
    { intros [= <- <-] Hj. simpl. apply list_lookup_alter_ne. lia. }
    destruct (setBreak _ _) as [[e|] p3] eqn:Hs; intros Hq Hj.
    + injection Hq as <- <-. eapply Harm; [|done]. lia.
    + erewrite IH; [|done|lia]. eapply Harm; [|done]. lia.
  - destruct (setBreak _ _) as [[e|] p3] eqn:Hs; intros Hq Hj.
    + injection Hq as <- <-. eapply Harm; [|done]. lia.
    + erewrite IH; [|done|lia]. eapply Harm; [|done]. lia.
  - by intros [= <- <-].
Qed.

Lemma loop_out_of_range n i regs evs p :
  (length (regions p) ≤ i)%nat →
  handleInterrupt_loop n i regs evs p = ((evs, None), p).
Proof.
  intros Hi. apply lookup_ge_None in Hi. destruct n; simpl; [done|].
  by rewrite Hi.
Qed.

(** No region armed at the trap address in the range: nothing happens. *)
Lemma loop_no_match n : ∀ i regs evs p,
  (∀ j r, (i ≤ j < i + n)%nat → regions p !! j = Some r →
          curInterrupt r ≠ Rip regs) →
  handleInterrupt_loop n i regs evs p = ((evs, None), p).
Proof.
  induction n as [|n IH]; intros i regs evs p Hno; simpl; [done|].
  destruct (regions p !! i) as [r|] eqn:Hi; [|done].
  rewrite decide_False by (eapply Hno; [|done]; lia).
  apply IH. intros j rj Hj. apply Hno. lia.
Qed.

(** The loop over [m + n] regions is the loop over the first [m] followed,
    unless it failed, by the loop over the other [n]. *)
Lemma loop_app m : ∀ n i regs evs p,
  handleInterrupt_loop (m + n) i regs evs p =
    match handleInterrupt_loop m i regs evs p with
    | ((evs1, None), p1) => handleInterrupt_loop n (i + m) regs evs1 p1
    | failed => failed
    end.
Proof.
  induction m as [|m IH]; intros n i regs evs p; simpl.
  { by rewrite Nat.add_0_r. }
  destruct (regions p !! i) as [r|] eqn:Hi; cycle 1.
  { rewrite loop_out_of_range; [done|]. apply lookup_ge_None in Hi. lia. }
  replace (i + S m)%nat with (S i + m)%nat by lia.
  destruct (decide _) as [Heq|Hne]; [|apply IH].
  destruct (state r); [| |done].
  - destruct (End _ _ _ _) as [addr [e0|]]; [done|].
    destruct (setBreak _ _) as [[e|] p3]; [done|]. apply IH.
  - destruct (setBreak _ _) as [[e|] p3]; [done|]. apply IH.
Qed.

(** The iteration at which the End function of a region fails. *)
Lemma loop_End_fails n i regs evs p r addr e :
  regions p !! i = Some r → curInterrupt r = Rip regs →
  state r = RegionStart →
  End (region r) (Rsp regs) (pieOffset p) (tracer p) = (addr, Some e) →
  handleInterrupt_loop (S n) i regs evs p
    = (([], Some e), set_state i RegionEnd p).
Proof.
  intros Hi Heq Hst HE. simpl. rewrite Hi, decide_True by done.
  rewrite Hst. simpl. by rewrite HE.
Qed.

End Loop.

(** ** [handleInterrupt] *)

Section Interrupt.

(** [handleInterrupt] in terms of its three stages. *)
Lemma handleInterrupt_unfold p :
  handleInterrupt p =
    match removeBreak (trap_pc p) (rewound p) with
    | (Some e, p1) => (([], Some e), p1)
    | (None, p1) =>
        handleInterrupt_loop (length (regions p1)) 0 (trap_regs p) [] p1
    end.
Proof.
  unfold handleInterrupt, rewound, trap_pc, trap_regs.
  destruct (GetRegs (tracer p)) as [[r e] t1]. simpl.
  destruct (SetRegs _ t1) as [e2 t2]. simpl.
  destruct (removeBreak _ _) as [[e3|] p1]; done.
Qed.

Lemma GetRegs_frame t r t' :
  GetRegs t = (r, t') →
  t_mem t' = t_mem t ∧ t_regs t' = t_regs t ∧
  t_log t' = t_log t ++ [SysGetRegs] ∧
  (snd r = None → fst r = Some (t_regs t)).
Proof.
  unfold GetRegs. destruct (tick _ t) as [f t1] eqn:Ht.
  apply tick_frame in Ht as (Hm & Hr & Hl).
  destruct f; intros [= <- <-]; simpl; split_and!; try done.
  by rewrite Hr.
Qed.

Lemma SetRegs_frame regs t e t' :
  SetRegs regs t = (e, t') →
  t_mem t' = t_mem t ∧ t_log t' = t_log t ++ [SysSetRegs regs] ∧
  (e = None → t_regs t' = regs).
Proof.
  unfold SetRegs. destruct (tick _ t) as [f t1] eqn:Ht.
  apply tick_frame in Ht as (Hm & Hr & Hl).
  destruct f; intros [= <- <-]; simpl; split_and!; done.
Qed.

Lemma rewound_frame p :
  regions (rewound p) = regions p ∧ pieOffset (rewound p) = pieOffset p ∧
  breakpoints (rewound p) = breakpoints p ∧
  t_mem (tracer (rewound p)) = t_mem (tracer p) ∧
  t_log (tracer (rewound p)) =
    t_log (tracer p) ++ [SysGetRegs; SysSetRegs (trap_regs p)].
Proof.
  unfold rewound. simpl.
  destruct (GetRegs (tracer p)) as [r t1] eqn:Hg.
  apply GetRegs_frame in Hg as (Hm1 & _ & Hl1 & _). simpl.
  destruct (SetRegs (trap_regs p) t1) as [e t2] eqn:Hs.
  apply SetRegs_frame in Hs as (Hm2 & Hl2 & _). simpl.
  split_and!; try done; try congruence.
  rewrite Hl2, Hl1, <-app_assoc. done.
Qed.

(** A trap handled without error. *)
Lemma handleInterrupt_ok p evs p' :
  handleInterrupt p = ((evs, None), p') →
  is_Some (breakpoints p !! trap_pc p) ∧
  length (regions p') = length (regions p) ∧
  pieOffset p' = pieOffset p ∧
  delete (trap_pc p) (breakpoints p) ⊆ breakpoints p' ∧
  ∃ p1, p1 = snd (removeBreak (trap_pc p) (rewound p)) ∧
        regions p1 = regions p ∧ pieOffset p1 = pieOffset p ∧
        breakpoints p1 = delete (trap_pc p) (breakpoints p) ∧
        loop_post 0 (trap_regs p) [] p1 evs p'.
Proof.
  rewrite handleInterrupt_unfold.
  destruct (rewound_frame p) as (Hr0 & Hpie0 & Hb0 & _).
  destruct (removeBreak _ _) as [[e|] p1] eqn:Hrm; [done|].
  apply removeBreak_frame in Hrm as (Hr1 & Hpie1 & _ & _ & _ & Hb1).
  cbn [snd].
  destruct Hb1 as [Hb1 Hin]; [done|]. rewrite Hb0 in Hb1, Hin.
  intros Hloop. pose proof Hloop as Hfr.
  apply loop_frame in Hfr as (Hlen & Hpie & _).
  apply loop_ok in Hloop; [|done].
  split_and!; try congruence.
  - rewrite <-Hb1. by destruct Hloop as (_ & _ & _ & ? & _).
  - exists p1. split_and!; congruence || done.
Qed.

End Interrupt.

(** ** Runs of the engine *)

Section Run.

(** A trap handled without error, region by region. *)
Lemma handleInterrupt_step p evs p' :
  handleInterrupt p = ((evs, None), p') →
  evs = event_of <$> armed_at (trap_pc p) (regions p) ∧
  length (regions p') = length (regions p) ∧
  ∀ i r, regions p !! i = Some r →
    ∃ r', regions p' !! i = Some r' ∧ id r' = id r ∧
      if decide (curInterrupt r = trap_pc p)
      then state r' = flip (state r) ∧
           is_Some (breakpoints p' !! curInterrupt r')
      else r' = r.
Proof.
  intros H.
  apply handleInterrupt_ok in H
    as (_ & Hlen & _ & _ & p1 & _ & Hr1 & Hpie1 & _ & Hev & _ & Hge & _).
  rewrite Hr1 in *. split_and!; [done|done|].
  intros i r Hi. destruct (Hge i r) as (r' & Hr' & Hcase); [lia|done|].
  exists r'. split; [done|]. fold (trap_pc p) in Hcase.
  destruct (decide _).
  - destruct Hcase as [(Hid & _ & Hst) Hin]. split; [done|]. split; [|done].
    destruct (state r); simpl; [by destruct Hst..|done].
  - by subst.
Qed.

Lemma handleInterrupt_ids p evs p' :
  handleInterrupt p = ((evs, None), p') →
  id <$> regions p' = id <$> regions p.
Proof.
  intros H. apply handleInterrupt_step in H as (_ & Hlen & Hstep).
  apply list_eq. intros i. rewrite !list_lookup_fmap.
  destruct (regions p !! i) as [r|] eqn:Hi.
  - destruct (Hstep i r Hi) as (r' & -> & Hid & _). simpl. by rewrite Hid.
  - apply lookup_ge_None in Hi. rewrite <-Hlen in Hi.
    apply lookup_ge_None in Hi. by rewrite Hi.
Qed.

(** With distinct ids, the events of one trap that carry the id of a
    region are its own: one if it was armed at the trap address, none
    otherwise. *)
Lemma states_of_none k pc l :
  (∀ x, x ∈ l → id x ≠ k) →
  states_of k (event_of <$> armed_at pc l) = [].
Proof.
  unfold states_of, armed_at. induction l as [|x l IH]; intros Hk; [done|].
  assert (states_of k (event_of <$> armed_at pc l) = []) as IH'.
  { apply IH. intros y Hy. apply Hk. by right. }
  unfold states_of, armed_at in IH'.
  destruct (decide (curInterrupt x = pc)).
  - rewrite filter_cons_True by done. rewrite fmap_cons.
    rewrite filter_cons_False; [done|]. simpl. apply Hk. by left.
  - by rewrite filter_cons_False.
Qed.

Lemma states_of_own pc l r :
  NoDup (id <$> l) → r ∈ l →
  states_of (id r) (event_of <$> armed_at pc l)
    = if decide (curInterrupt r = pc) then [state r] else [].
Proof.
  induction l as [|x l IH]; intros Hnd Hr; [by apply elem_of_nil in Hr|].
  rewrite fmap_cons in Hnd. apply NoDup_cons in Hnd as [Hx Hnd].
  assert (∀ y, y ∈ l → id y ≠ id x) as Hfresh.
  { intros y Hy Heq. apply Hx. rewrite <-Heq. by apply list_elem_of_fmap_2. }
  apply elem_of_cons in Hr as [->|Hr].
  - pose proof (states_of_none (id x) pc l Hfresh) as Hn.
    unfold states_of, armed_at in *.
    destruct (decide (curInterrupt x = pc)).
    + rewrite filter_cons_True by done. rewrite fmap_cons.
      rewrite filter_cons_True by done. rewrite fmap_cons, Hn. done.
    + by rewrite filter_cons_False.
  - specialize (IH Hnd Hr). unfold states_of, armed_at in *.
    destruct (decide (curInterrupt x = pc)).
    + rewrite filter_cons_True by done. rewrite fmap_cons.
      rewrite filter_cons_False; [done|]. simpl.
      intros Heq. by apply (Hfresh r Hr).
    + by rewrite filter_cons_False.
Qed.

Lemma states_of_app k l1 l2 :
  states_of k (l1 ++ l2) = states_of k l1 ++ states_of k l2.
Proof. unfold states_of. by rewrite filter_app, fmap_app. Qed.

(** Along a run without error every region keeps on alternating from the
    state it is in. *)
Lemma run_alternating ws : ∀ p outs p',
  run ws p = (outs, p') → completed outs →
  NoDup (id <$> regions p) →
  ∀ r, r ∈ regions p →
    alternating (state r) (states_of (id r) (emitted outs)).
Proof.
  induction ws as [|w ws IH]; intros p outs p'; simpl.
  { intros [= <- <-] _ _ r _. done. }
  destruct (handleInterrupt (resume w p)) as [[evs err] p1] eqn:Hh.
  destruct (run ws p1) as [outs1 p2] eqn:Hrun.
  intros [= <- <-] Hc Hnd r Hr.
  apply Forall_cons in Hc as [Herr Hc]. simpl in Herr. subst err.
  pose proof (handleInterrupt_ids _ _ _ Hh) as Hids.
  apply handleInterrupt_step in Hh as (Hev & _ & Hstep).
  change (regions (resume w p)) with (regions p) in *.
  apply list_elem_of_lookup in Hr as [i Hi].
  destruct (Hstep i r Hi) as (r' & Hi' & Hid & Hcase).
  assert (r' ∈ regions p1) as Hr' by (apply list_elem_of_lookup; eauto).
  specialize (IH p1 outs1 p2 Hrun Hc).
  rewrite Hids in IH. specialize (IH Hnd r' Hr'). rewrite Hid in IH.
  unfold emitted. simpl. fold (emitted outs1).
  rewrite states_of_app, Hev, states_of_own;
    [|done|apply list_elem_of_lookup; eauto].
  destruct (decide _).
  - destruct Hcase as [Hst _]. rewrite Hst in IH. simpl. done.
  - subst r'. done.
Qed.

(** ** The armed addresses and the table *)

Lemma handleInterrupt_armed_inv p evs p' :
  handleInterrupt p = ((evs, None), p') → armed_inv p → armed_inv p'.
Proof.
  intros H Hinv. unfold armed_inv in *.
  pose proof (handleInterrupt_step _ _ _ H) as (_ & Hlen & Hstep).
  apply handleInterrupt_ok in H
    as (_ & _ & _ & Hsub & p1 & _ & Hr1 & _ & Hb1 & _ & _ & _ & _ & Hdom).
  rewrite Hr1, Hb1 in Hdom.
  assert (∀ a, is_Some (breakpoints p !! a) ↔
               ∃ r, r ∈ regions p ∧ curInterrupt r = a) as Hinv'.
  { intros a. rewrite <-elem_of_dom, Hinv, elem_of_list_to_set.
    rewrite list_elem_of_fmap. split.
    - intros (r & -> & Hr). eauto.
    - intros (r & Hr & <-). eauto. }
  apply set_eq. intros a.
  rewrite elem_of_dom, elem_of_list_to_set, list_elem_of_fmap. split.
  - intros Ha. destruct (Hdom a Ha) as [Hold|(j & r & r' & _ & _ & _ & Hj & Hc)].
    + apply lookup_delete_is_Some in Hold as [Hne Hold].
      apply Hinv' in Hold as (r & Hr & Hc).
      apply list_elem_of_lookup in Hr as [i Hi].
      destruct (Hstep i r Hi) as (r' & Hi' & _ & Hcase).
      rewrite decide_False in Hcase by congruence. subst r'.
      exists r. split; [done|]. apply list_elem_of_lookup. eauto.
    + exists r'. split; [done|]. apply list_elem_of_lookup. eauto.
  - intros (r' & -> & Hr'). apply list_elem_of_lookup in Hr' as [i Hi'].
    assert (is_Some (regions p !! i)) as [r Hi].
    { apply lookup_lt_is_Some. rewrite <-Hlen. by eapply lookup_lt_Some. }
    destruct (Hstep i r Hi) as (r'' & Hi'' & _ & Hcase).
    replace r'' with r' in * by congruence.
    destruct (decide _) as [|Hne]; [by destruct Hcase|]. subst r'.
    eapply lookup_weaken_is_Some; [|exact Hsub].
    apply lookup_delete_is_Some. split; [congruence|].
    apply Hinv'. exists r. split; [|done]. apply list_elem_of_lookup. eauto.
Qed.

Lemma run_armed_inv ws : ∀ p outs p',
  run ws p = (outs, p') → completed outs → armed_inv p →
  armed_inv p' ∧ length (regions p') = length (regions p).
Proof.
  induction ws as [|w ws IH]; intros p outs p'; simpl.
  { by intros [= <- <-]. }
  destruct (handleInterrupt (resume w p)) as [[evs err] p1] eqn:Hh.
  destruct (run ws p1) as [outs1 p2] eqn:Hrun.
  intros [= <- <-] Hc Hinv.
  apply Forall_cons in Hc as [Herr Hc]. simpl in Herr. subst err.
  pose proof (handleInterrupt_step _ _ _ Hh) as (_ & Hlen & _).
  apply handleInterrupt_armed_inv in Hh; [|exact Hinv].
  destruct (IH _ _ _ Hrun Hc Hh) as [? Hlen2]. split; [done|].
  rewrite Hlen2, Hlen. done.
Qed.

End Run.

(** ** [newTracedProc] *)

Section Construction.

(** The tracing calls of [setBreak pc] are all at [pc], and there is none
    when [pc] is already a key. *)
Lemma setBreak_log a p e p' :
  setBreak a p = (e, p') →
  ∃ l, t_log (tracer p') = t_log (tracer p) ++ l ∧
       Forall (λ c, syscall_addr c = Some a) l ∧
       (is_Some (breakpoints p !! a) → l = []).
Proof.
  unfold setBreak, uintptr.
  destruct (breakpoints p !! a) as [o|] eqn:Ho.
  { intros [= <- <-]. exists []. by rewrite app_nil_r. }
  assert (is_Some (@None (list byte)) → ∀ l : list syscall, l = []) as Hno
    by (by intros [? ?]).
  destruct (PeekData _ _ _) as [[orig err] t1] eqn:Hpeek.
  apply PeekData_frame in Hpeek as (_ & _ & Hl1).
  destruct err.
  { intros [= <- <-]. simpl. eexists. split; [exact Hl1|].
    split; [by repeat constructor|]. intros H. by apply Hno. }
  destruct (PokeData _ _ _) as [err t2] eqn:Hpoke.
  apply PokeData_frame in Hpoke as (_ & Hl2 & _).
  assert (t_log t2 = t_log (tracer p)
            ++ [SysPeek a (length interrupt); SysPoke a interrupt]) as Hl.
  { rewrite Hl2, Hl1, <-app_assoc. done. }
  destruct err; intros [= <- <-]; simpl; eexists; (split; [exact Hl|]);
    (split; [by repeat constructor|]); intros H; by apply Hno.
Qed.

(** The loop of [newTracedProc], when it ends without error. *)
Lemma new_loop_ok breaks rs : ∀ k p p',
  newTracedProc_loop breaks rs k p = (None, p') →
  let starts := (λ r, Start r (pieOffset p)) <$> rs in
  pieOffset p' = pieOffset p ∧
  id <$> regions p' = (id <$> regions p) ++ seq k (length rs) ∧
  state <$> regions p'
    = (state <$> regions p) ++ replicate (length rs) RegionStart ∧
  curInterrupt <$> regions p' = (curInterrupt <$> regions p) ++ starts ∧
  dom (breakpoints p') = dom (breakpoints p) ∪ list_to_set starts ∧
  (∀ a, a ∈ starts → is_Some (breaks !! a) →
        breakpoints p' !! a = breaks !! a) ∧
  (∀ a, a ∉ starts → breakpoints p' !! a = breakpoints p !! a) ∧
  ∃ l, t_log (tracer p') = t_log (tracer p) ++ l ∧
       Forall (λ c, ∃ a, syscall_addr c = Some a ∧ a ∈ starts ∧
                         breaks !! a = None) l.
Proof.
  induction rs as [|r rs IH]; intros k p p'; simpl.
  { intros [= <-]. rewrite !app_nil_r. split_and!; try done.
    - set_solver.
    - intros a Ha. by apply elem_of_nil in Ha.
    - exists []. by rewrite app_nil_r. }
  unfold uintptr. set (addr := Start r (pieOffset p)).
  destruct (breaks !! addr) as [orig|] eqn:Hb.
  - intros H. apply IH in H. simpl in H. fold addr in H.
    destruct H as (Hpie & Hid & Hst & Hcur & Hdom & Hin & Hout & l & Hl & Hf).
    rewrite !fmap_app, <-!app_assoc in *. simpl in *.
    split_and!; try done.
    + rewrite Hdom, dom_insert_L. set_solver.
    + intros a Ha Hsome.
      destruct (decide (a ∈ (λ r0, Start r0 (pieOffset p)) <$> rs)) as [|Hn];
        [by apply Hin|].
      rewrite (Hout _ Hn). apply elem_of_cons in Ha as [->|Ha]; [|done].
      fold addr. by rewrite lookup_insert_eq, Hb.
    + intros a Ha. apply not_elem_of_cons in Ha as [Hne Ha].
      rewrite (Hout _ Ha). by apply lookup_insert_ne.
    + exists l. split; [done|]. eapply Forall_impl; [exact Hf|].
      intros c (a & ? & ? & ?). exists a. split_and!; [done| |done].
      by right.
  - destruct (setBreak addr p) as [[e|] p1] eqn:Hs; [done|].
    pose proof (setBreak_log _ _ _ _ Hs) as (l1 & Hl1 & Hf1 & _).
    apply setBreak_frame in Hs as (Hr1 & Hpie1 & _ & _ & _ & _ & Hcase).
    intros H. apply IH in H. simpl in H. rewrite Hr1, Hpie1 in H.
    fold addr in H.
    destruct H as (Hpie & Hid & Hst & Hcur & Hdom & Hin & Hout & l & Hl & Hf).
    rewrite !fmap_app, <-!app_assoc in *. simpl in *.
    assert (dom (breakpoints p1) = {[addr]} ∪ dom (breakpoints p)
            ∧ ∀ a, a ≠ addr → breakpoints p1 !! a = breakpoints p !! a)
      as [Hd1 Hne1].
    { destruct Hcase as [[Hs ->]|[Hn [o ->]]].
      - split; [|done]. apply elem_of_dom in Hs. set_solver.
      - split; [apply dom_insert_L|].
        intros a Ha. by apply lookup_insert_ne. }
    split_and!; try done; try congruence.
    + rewrite Hdom, Hd1. set_solver.
    + intros a Ha Hsome. apply elem_of_cons in Ha as [->|Ha]; [|by apply Hin].
      fold addr in Hsome. rewrite Hb in Hsome. by destruct Hsome.
    + intros a Ha. apply not_elem_of_cons in Ha as [Hne Ha].
      rewrite (Hout _ Ha). by apply Hne1.
    + exists (l1 ++ l). split; [by rewrite Hl, Hl1, app_assoc|].
      apply Forall_app. split.
      * eapply Forall_impl; [exact Hf1|]. intros c Hc. exists addr.
        split_and!; [done|by left|done].
      * eapply Forall_impl; [exact Hf|].
        intros c (a & ? & ? & ?). exists a. split_and!; [done| |done].
        by right.
Qed.

(** When every Start address is a key of the inherited map the loop cannot
    fail and issues no tracing call. *)
Lemma new_loop_inherited breaks rs : ∀ k p,
  (∀ a, a ∈ (λ r, Start r (pieOffset p)) <$> rs → is_Some (breaks !! a)) →
  ∃ p', newTracedProc_loop breaks rs k p = (None, p') ∧
        tracer p' = tracer p.
Proof.
  induction rs as [|r rs IH]; intros k p Hall; simpl; [eauto|].
  unfold uintptr.
  destruct (Hall (Start r (pieOffset p))) as [orig Ho]; [by left|].
  rewrite Ho.
  edestruct IH as (p' & Hp' & Ht); [|rewrite Hp'; eauto].
  simpl. intros a Ha. apply Hall. by right.
Qed.

Lemma newTracedProc_unfold pid pie rs breaks w off :
  pie pid = (off, None) →
  newTracedProc pid pie rs breaks w =
    match newTracedProc_loop breaks rs 0
            (mkProc (NewTracer pid w) [] off false ∅) with
    | (Some e, _) => (None, Some e)
    | (None, p) => (Some p, None)
    end.
Proof. intros H. unfold newTracedProc, newTracedProc_run. by rewrite H. Qed.

(** A Proc as [newTracedProc] returns it. *)
Lemma newTracedProc_ok pid pie rs breaks w p :
  newTracedProc pid pie rs breaks w = (Some p, None) →
  ∃ off, pie pid = (off, None) ∧
    newTracedProc_loop breaks rs 0 (mkProc (NewTracer pid w) [] off false ∅)
      = (None, p).
Proof.
  unfold newTracedProc, newTracedProc_run.
  destruct (pie pid) as [off [e|]]; [done|].
  destruct (newTracedProc_loop _ _ _ _) as [[e|] p1] eqn:Hl; [done|].
  intros [= <-]. by exists off.
Qed.

Lemma newTracedProc_init pid pie rs breaks w p :
  newTracedProc pid pie rs breaks w = (Some p, None) →
  armed_inv p ∧ NoDup (id <$> regions p) ∧
  length (regions p) = length rs ∧
  ∀ r, r ∈ regions p → state r = RegionStart.
Proof.
  intros H. apply newTracedProc_ok in H as (off & _ & H).
  apply new_loop_ok in H
    as (_ & Hid & Hst & Hcur & Hdom & _). simpl in *.
  split_and!.
  - unfold armed_inv. rewrite Hdom, Hcur, dom_empty_L. set_solver.
  - rewrite Hid. apply NoDup_seq.
  - rewrite <-(length_fmap id), Hid. by rewrite length_seq.
  - intros r Hr. apply (list_elem_of_fmap_2 state) in Hr.
    rewrite Hst in Hr. by apply elem_of_replicate in Hr as [? _].
Qed.

Lemma newTracedProc_run_ok pid pie rs breaks w :
  fst (newTracedProc_run pid pie rs breaks w) = None →
  newTracedProc pid pie rs breaks w
    = (Some (snd (newTracedProc_run pid pie rs breaks w)), None).
Proof.
  unfold newTracedProc.
  destruct (newTracedProc_run _ _ _ _ _) as [[e|] p]; by simpl.
Qed.

End Construction.

(** * The claims *)

(** C1. A trap handled without error at the rewound address [trap_pc p]
    returns exactly one event per region armed at that address, in the order
    of the regions, each carrying the id and the state the region had before
    the call; each such region makes its own transition (from Start to End
    at the address its End function computed from the stack pointer and the
    Proc as the loop had it on reaching the region, from End to Start at its
    Start address) and its new address is in the breakpoint table; the other
    regions are untouched. *)
Theorem handleInterrupt_events (p : Proc) (evs : list Event) (p' : Proc) :
  handleInterrupt p = ((evs, None), p') →
  evs = event_of <$> armed_at (trap_pc p) (regions p) ∧
  length (regions p') = length (regions p) ∧
  ∀ i r, regions p !! i = Some r →
    ∃ r', regions p' !! i = Some r' ∧
      if decide (curInterrupt r = trap_pc p)
      then rearmed (Rsp (trap_regs p)) (pieOffset p)
             (tracer (proc_before i p)) r r' ∧
           is_Some (breakpoints p' !! curInterrupt r')
      else r' = r.
Proof.
  intros H.
  apply handleInterrupt_ok in H
    as (_ & Hlen & _ & _ & p1 & Hp1 & Hr1 & Hpie1 & _ & Hev & _ & Hge & _).
  rewrite Hr1, Hpie1 in *. split_and!; [done|done|].
  intros i r Hi. destruct (Hge i r) as (r' & Hr' & Hcase); [lia|done|].
  exists r'. split; [done|].
  rewrite Nat.sub_0_r, Hp1 in Hcase. exact Hcase.
Qed.

Lemma handleInterrupt_events_witness :
  handleInterrupt trap_S3
    = (([mkEvent 0 RegionStart; mkEvent 1 RegionStart], None),
       snd (handleInterrupt trap_S3)) ∧
  [mkEvent 0 RegionStart; mkEvent 1 RegionStart]
    = event_of <$> armed_at (trap_pc trap_S3) (regions trap_S3) ∧
  (λ r, (id r, state r, curInterrupt r))
    <$> regions (snd (handleInterrupt trap_S3))
    = [(0%nat, RegionEnd, 4198964); (1%nat, RegionEnd, 4199168)].
Proof.
  assert (handleInterrupt trap_S3
    = (([mkEvent 0 RegionStart; mkEvent 1 RegionStart], None),
       snd (handleInterrupt trap_S3))) as H
    by (apply pair_eta; vm_compute; reflexivity).
  split_and!; [exact H| |vm_compute; reflexivity].
  exact (proj1 (handleInterrupt_events _ _ _ H)).
Defined.

(** C2. Every call of [handleInterrupt] starts with [GetRegs] followed by
    [SetRegs] of the register file with the instruction pointer decremented
    by the length of the trap opcode (one byte, in 64-bit arithmetic); when
    both calls succeed the tracee's instruction pointer after
    [handleInterrupt], whatever it returns, is the original one minus one. *)
Theorem handleInterrupt_rewinds_pc (p : Proc) :
  (∃ l, t_log (tracer (snd (handleInterrupt p)))
          = t_log (tracer p) ++ SysGetRegs :: SysSetRegs (trap_regs p) :: l) ∧
  (regs_access_ok p →
     trap_regs p = mkRegs (wrap64 (Rip (t_regs (tracer p)) - 1))
                          (Rsp (t_regs (tracer p))) ∧
     Rip (t_regs (tracer (snd (handleInterrupt p))))
       = wrap64 (Rip (t_regs (tracer p)) - 1) ∧
     (0 < Rip (t_regs (tracer p)) < 2 ^ 64 →
        Rip (t_regs (tracer (snd (handleInterrupt p))))
          = Rip (t_regs (tracer p)) - Z.of_nat (length interrupt))).
Proof.
  assert (∃ l, t_log (tracer (snd (handleInterrupt p)))
                 = t_log (tracer (rewound p)) ++ l ∧
               t_regs (tracer (snd (handleInterrupt p)))
                 = t_regs (tracer (rewound p))) as (l & Hl & Hregs).
  { rewrite handleInterrupt_unfold.
    destruct (removeBreak _ _) as [[e|] p1] eqn:Hrm;
      apply removeBreak_frame in Hrm as (_ & _ & _ & Hr1 & [l1 Hl1] & _).
    - cbn [snd]. eauto.
    - destruct (handleInterrupt_loop _ _ _ _ _) as [out p2] eqn:Hloop.
      apply loop_frame in Hloop as (_ & _ & Hr2 & [l2 Hl2]). cbn [snd].
      exists (l1 ++ l2). split; [|congruence].
      by rewrite Hl2, Hl1, app_assoc. }
  destruct (rewound_frame p) as (_ & _ & _ & _ & Hl0).
  split.
  { exists l. rewrite Hl, Hl0, <-app_assoc. done. }
  intros [Hget Hset].
  assert (trap_regs p = mkRegs (wrap64 (Rip (t_regs (tracer p)) - 1))
                               (Rsp (t_regs (tracer p)))) as Htr.
  { unfold trap_regs. destruct (GetRegs (tracer p)) as [r t1] eqn:Hg.
    apply GetRegs_frame in Hg as (_ & _ & _ & Hr). simpl in *.
    rewrite (Hr Hget). done. }
  assert (Rip (t_regs (tracer (snd (handleInterrupt p))))
            = wrap64 (Rip (t_regs (tracer p)) - 1)) as Hrip.
  { rewrite Hregs. unfold rewound. simpl.
    destruct (SetRegs _ _) as [e t2] eqn:Hs.
    apply SetRegs_frame in Hs as (_ & _ & Hr). simpl in *.
    rewrite (Hr Hset), Htr. done. }
  split_and!; [done|done|].
  intros Hrange. rewrite Hrip. unfold wrap64. simpl.
  apply Z.mod_small. lia.
Qed.

Lemma handleInterrupt_rewinds_pc_witness :
  regs_access_ok trap_S1 ∧
  Rip (t_regs (tracer trap_S1)) = 4198401 ∧
  Rip (t_regs (tracer (snd (handleInterrupt trap_S1)))) = 4198400.
Proof.
  assert (regs_access_ok trap_S1) as H by (split; vm_compute; reflexivity).
  split; [exact H|]. split; [reflexivity|].
  exact (proj1 (proj2 (proj2 (handleInterrupt_rewinds_pc trap_S1) H))).
Defined.

(** C4. [removeBreak addr] fails with [ErrInvalidBreakpoint] exactly when
    [addr] is not a key of the table; when it is a key, one [PokeData] of
    the saved bytes at [addr] is issued (after which, if it succeeded, the
    tracee reads the saved bytes there), the error of that call is returned
    and the entry is deleted; [handleInterrupt] returns
    [ErrInvalidBreakpoint], and no event, when the rewound pc is not a key. *)
Theorem removeBreak_spec (addr : Z) (p : Proc) :
  (fst (removeBreak addr p) = Some ErrInvalidBreakpoint
     ↔ breakpoints p !! addr = None) ∧
  (∀ orig, breakpoints p !! addr = Some orig →
     let p' := snd (removeBreak addr p) in
     fst (removeBreak addr p) = fst (PokeData addr orig (tracer p)) ∧
     t_log (tracer p') = t_log (tracer p) ++ [SysPoke addr orig] ∧
     breakpoints p' = delete addr (breakpoints p) ∧
     (fst (removeBreak addr p) = None →
        read_bytes (t_mem (tracer p')) addr (length orig) = Some orig)) ∧
  (∀ q, breakpoints q !! trap_pc q = None →
     fst (handleInterrupt q) = ([], Some ErrInvalidBreakpoint)).
Proof.
  split_and!.
  - unfold removeBreak, uintptr.
    destruct (breakpoints p !! addr) as [o|]; [|done].
    destruct (PokeData _ _ _) as [e t1] eqn:Hp. simpl. split; [|done].
    unfold PokeData in Hp. destruct (tick _ _) as [[f|] t0].
    + by injection Hp as <- <-.
    + destruct (write_bytes _ _ _); by injection Hp as <- <-.
  - intros orig Ho. unfold removeBreak, uintptr. rewrite Ho.
    destruct (PokeData _ _ _) as [e t1] eqn:Hp. simpl.
    pose proof Hp as Hf. apply PokeData_frame in Hf as (_ & Hl & _).
    split_and!; [done|done|done|].
    intros ->. by eapply PokeData_ok_read.
  - intros q Hq. rewrite handleInterrupt_unfold.
    destruct (rewound_frame q) as (_ & _ & Hb & _).
    unfold removeBreak, uintptr. rewrite Hb, Hq. done.
Qed.

Lemma removeBreak_spec_witness :
  breakpoints proc_S1 !! 4198400 = Some [x55] ∧
  t_mem (tracer proc_S1) !! 4198400 = Some xcc ∧
  fst (removeBreak 4198400 proc_S1) = None ∧
  t_mem (tracer (snd (removeBreak 4198400 proc_S1))) !! 4198400 = Some x55 ∧
  breakpoints (snd (removeBreak 4198400 proc_S1)) = ∅.
Proof.
  assert (breakpoints proc_S1 !! 4198400 = Some [x55]) as H
    by (vm_compute; reflexivity).
  destruct (proj1 (proj2 (removeBreak_spec 4198400 proc_S1)) _ H)
    as (Herr & _ & Hdel & _).
  split_and!; [exact H|vm_compute; reflexivity| |vm_compute; reflexivity|].
  - rewrite Herr. vm_compute. reflexivity.
  - rewrite Hdel. vm_compute. reflexivity.
Defined.

(** C5. [setBreak] is idempotent.  On an address that is already a key of
    the table it returns nil and leaves the whole Proc as it was: the table
    and its saved bytes, and the tracer with its memory and its log, so no
    peek or poke was issued.  Hence a second [setBreak a] right after one
    that returned nil changes nothing. *)
Theorem setBreak_idempotent (a : Z) (p : Proc) :
  (is_Some (breakpoints p !! a) → setBreak a p = (None, p)) ∧
  (∀ p1, setBreak a p = (None, p1) →
     setBreak a p1 = (None, p1) ∧
     breakpoints (snd (setBreak a p1)) = breakpoints p1 ∧
     t_mem (tracer (snd (setBreak a p1))) = t_mem (tracer p1) ∧
     t_log (tracer (snd (setBreak a p1))) = t_log (tracer p1)).
Proof.
  split; [apply setBreak_present|].
  intros p1 H. apply setBreak_frame in H as (_ & _ & _ & _ & _ & Hin & _).
  rewrite (setBreak_present _ _ Hin). done.
Qed.

Lemma setBreak_idempotent_witness :
  setBreak 4198964 trap_S1 = (None, snd (setBreak 4198964 trap_S1)) ∧
  breakpoints (snd (setBreak 4198964 trap_S1))
    = {[ 4198400 := [x55]; 4198964 := [x90] ]} ∧
  setBreak 4198964 (snd (setBreak 4198964 trap_S1))
    = (None, snd (setBreak 4198964 trap_S1)).
Proof.
  assert (setBreak 4198964 trap_S1 = (None, snd (setBreak 4198964 trap_S1)))
    as H by (apply pair_eta; vm_compute; reflexivity).
  split_and!; [exact H|vm_compute; reflexivity|].
  exact (proj1 (proj2 (setBreak_idempotent 4198964 trap_S1) _ H)).
Defined.

(** C9. What [handleInterrupt] does when a register call fails: the failure
    of [SetRegs] is dropped (the events and a nil error come back as if the
    write had succeeded, the tracee's instruction pointer not rewound), and
    after a failed [GetRegs] the error that comes back is
    [ErrInvalidBreakpoint] for the address 2^64 - 1, not the failure. *)
Theorem handleInterrupt_drops_register_errors :
  (fst (SetRegs (trap_regs trap_setregs_fails)
          (snd (GetRegs (tracer trap_setregs_fails))))
     = Some (ErrTracer RegisterAccess) ∧
   fst (handleInterrupt trap_setregs_fails)
     = ([mkEvent 0 RegionStart], None) ∧
   Rip (t_regs (tracer (snd (handleInterrupt trap_setregs_fails))))
     = 4198401) ∧
  (snd (fst (GetRegs (tracer trap_getregs_fails)))
     = Some (ErrTracer RegisterAccess) ∧
   trap_pc trap_getregs_fails = 2 ^ 64 - 1 ∧
   fst (handleInterrupt trap_getregs_fails)
     = ([], Some ErrInvalidBreakpoint)).
Proof. vm_compute. split_and!; reflexivity. Qed.

(** C10. [removeBreak] is not atomic: when writing the saved bytes back
    fails, the error is returned and the entry is deleted all the same, so
    that the address is no longer a key, a second [removeBreak] fails with
    [ErrInvalidBreakpoint], and the tracee's memory is what it was (it still
    holds the trap opcode where it did). *)
Theorem removeBreak_not_atomic (addr : Z) (p : Proc) (orig : list byte)
    (e : error) (p' : Proc) :
  breakpoints p !! addr = Some orig →
  removeBreak addr p = (Some e, p') →
  breakpoints p' = delete addr (breakpoints p) ∧
  breakpoints p' !! addr = None ∧
  fst (removeBreak addr p') = Some ErrInvalidBreakpoint ∧
  t_mem (tracer p') = t_mem (tracer p) ∧
  (t_mem (tracer p) !! addr = Some xcc →
     t_mem (tracer p') !! addr = Some xcc).
Proof.
  intros Ho. unfold removeBreak at 1. unfold uintptr. rewrite Ho.
  destruct (PokeData _ _ _) as [e1 t1] eqn:Hp.
  apply PokeData_frame in Hp as (_ & _ & Hm).
  intros [= -> <-]. simpl.
  assert (delete addr (breakpoints p) !! addr = None) as Hd
    by apply lookup_delete_eq.
  split_and!; [done|done| |by apply Hm|].
  - unfold removeBreak, uintptr. simpl. by rewrite Hd.
  - rewrite Hm by done. done.
Qed.

Lemma removeBreak_not_atomic_witness :
  breakpoints unpatch_fails !! 4198400 = Some [x55] ∧
  t_mem (tracer unpatch_fails) !! 4198400 = Some xcc ∧
  removeBreak 4198400 unpatch_fails
    = (Some (ErrTracer MemoryAccess), snd (removeBreak 4198400 unpatch_fails)) ∧
  breakpoints (snd (removeBreak 4198400 unpatch_fails)) !! 4198400 = None ∧
  t_mem (tracer (snd (removeBreak 4198400 unpatch_fails))) !! 4198400
    = Some xcc.
Proof.
  assert (breakpoints unpatch_fails !! 4198400 = Some [x55]) as H1
    by (vm_compute; reflexivity).
  assert (t_mem (tracer unpatch_fails) !! 4198400 = Some xcc) as H2
    by (vm_compute; reflexivity).
  assert (removeBreak 4198400 unpatch_fails
    = (Some (ErrTracer MemoryAccess), snd (removeBreak 4198400 unpatch_fails)))
    as H3 by (apply pair_eta; vm_compute; reflexivity).
  destruct (removeBreak_not_atomic _ _ _ _ _ H1 H3) as (_ & Hn & _ & _ & Hm).
  split_and!; [exact H1|exact H2|exact H3|exact Hn|exact (Hm H2)].
Defined.

(** C3, as the code has it.  From construction on, along every sequence of
    traps each handled without error, the states of the events emitted for
    one region id read Start, End, Start, End, ... beginning with Start. *)
Theorem state_alternation (pid : Z) (pie : PieOffsetter) (rs : list Region)
    (breaks : gmap Z (list byte)) (w : Tracer) (p : Proc)
    (ws : list Tracer) (outs : list (list Event * option error)) (p' : Proc) :
  newTracedProc pid pie rs breaks w = (Some p, None) →
  run ws p = (outs, p') →
  completed outs →
  ∀ k, alternating RegionStart (states_of k (emitted outs)).
Proof.
  intros Hnew Hrun Hc k.
  apply newTracedProc_init in Hnew as (_ & Hnd & _ & Hst).
  destruct (decide (k ∈ id <$> regions p)) as [Hk|Hk].
  - apply list_elem_of_fmap in Hk as (r & -> & Hr).
    rewrite <-(Hst r Hr). by eapply run_alternating.
  - assert (states_of k (emitted outs) = []) as ->; [|done].
    clear Hnd Hst. revert p outs p' Hrun Hc Hk.
    induction ws as [|w1 ws IH]; intros p outs p'; simpl.
    { by intros [= <- <-]. }
    destruct (handleInterrupt (resume w1 p)) as [[evs err] p1] eqn:Hh.
    destruct (run ws p1) as [outs1 p2] eqn:Hrun.
    intros [= <- <-] Hc Hk.
    apply Forall_cons in Hc as [Herr Hc]. simpl in Herr. subst err.
    pose proof (handleInterrupt_ids _ _ _ Hh) as Hids.
    apply handleInterrupt_step in Hh as (Hev & _).
    change (regions (resume w1 p)) with (regions p) in *.
    unfold emitted. simpl. fold (emitted outs1).
    rewrite states_of_app, Hev, states_of_none.
    + apply (IH p1 outs1 p2 Hrun Hc). by rewrite Hids.
    + intros x Hx Heq. apply Hk. rewrite <-Heq. by apply list_elem_of_fmap_2.
Qed.

Lemma state_alternation_witness :
  newTracedProc 7 pie0 [funcRegion 4198400] ∅ tracee0 = (Some proc_S1, None) ∧
  emitted (fst (run traps_S1 proc_S1))
    = [mkEvent 0 RegionStart; mkEvent 0 RegionEnd] ∧
  alternating RegionStart
    (states_of 0 (emitted (fst (run traps_S1 proc_S1)))).
Proof.
  assert (newTracedProc 7 pie0 [funcRegion 4198400] ∅ tracee0
            = (Some proc_S1, None)) as H1
    by (apply newTracedProc_run_ok; vm_compute; reflexivity).
  assert (run traps_S1 proc_S1
            = (fst (run traps_S1 proc_S1), snd (run traps_S1 proc_S1))) as H2
    by apply surjective_pairing.
  assert (completed (fst (run traps_S1 proc_S1))) as H3
    by (vm_compute; repeat constructor).
  split_and!; [exact H1|vm_compute; reflexivity|].
  exact (state_alternation _ _ _ _ _ _ _ _ _ H1 H2 H3 0%nat).
Defined.

(** C3 as stated fails on a sequence with a failed call.  The two regions
    of [proc_shared] are armed at 0x401234 once the first function is
    entered; at the trap there the first region, in state End, goes back to
    Start, and then the End function of the second region fails, so that
    [handleInterrupt] returns the error and no event: the End event of the
    first region is not delivered.  The next entry of the first function
    delivers Start for id 0 a second time. *)
Lemma alternation_broken_by_a_failed_call :
  newTracedProc 7 pie0 [funcRegion 4198400; funcRegion 4198964] ∅ tracee0
    = (Some proc_shared, None) ∧
  snd <$> fst (run traps_shared proc_shared)
    = [None; Some ErrRegionEndUnresolved; None] ∧
  emitted (fst (run traps_shared proc_shared))
    = [mkEvent 0 RegionStart; mkEvent 0 RegionStart] ∧
  states_of 0 (emitted (fst (run traps_shared proc_shared)))
    = [RegionStart; RegionStart] ∧
  ¬ alternating RegionStart
      (states_of 0 (emitted (fst (run traps_shared proc_shared)))).
Proof.
  assert (states_of 0 (emitted (fst (run traps_shared proc_shared)))
            = [RegionStart; RegionStart]) as H by (vm_compute; reflexivity).
  split_and!;
    [apply newTracedProc_run_ok; vm_compute; reflexivity
    |vm_compute; reflexivity|vm_compute; reflexivity|exact H|].
  rewrite H. simpl. intros (_ & Habs & _). discriminate Habs.
Qed.


(** C8, as the code has it.  After construction and after every trap of a
    sequence in which each call so far returned without error, each active
    region has its one armed address, [curInterrupt], in the breakpoint
    table, and the armed addresses of the regions are, as a set, the keys of
    the table; there is one active region per region given. *)
Theorem armed_addresses_are_the_keys (pid : Z) (pie : PieOffsetter)
    (rs : list Region) (breaks : gmap Z (list byte)) (w : Tracer) (p : Proc)
    (ws : list Tracer) (outs : list (list Event * option error)) (p' : Proc) :
  newTracedProc pid pie rs breaks w = (Some p, None) →
  run ws p = (outs, p') →
  completed outs →
  length (regions p') = length rs ∧
  (∀ r, r ∈ regions p' → is_Some (breakpoints p' !! curInterrupt r)) ∧
  dom (breakpoints p') = list_to_set (curInterrupt <$> regions p').
Proof.
  intros Hnew Hrun Hc.
  apply newTracedProc_init in Hnew as (Hinv & _ & Hlen & _).
  destruct (run_armed_inv _ _ _ _ Hrun Hc Hinv) as [Hinv' Hlen'].
  split_and!; [congruence| |exact Hinv'].
  intros r Hr. apply elem_of_dom. rewrite Hinv'.
  apply elem_of_list_to_set. by apply list_elem_of_fmap_2.
Qed.

Lemma armed_addresses_are_the_keys_witness :
  newTracedProc 7 pie0 [funcRegion 4198400] ∅ tracee0 = (Some proc_S1, None) ∧
  curInterrupt <$> regions (snd (run traps_S1 proc_S1)) = [4198400] ∧
  dom (breakpoints (snd (run traps_S1 proc_S1)))
    = list_to_set (curInterrupt <$> regions (snd (run traps_S1 proc_S1))).
Proof.
  assert (newTracedProc 7 pie0 [funcRegion 4198400] ∅ tracee0
            = (Some proc_S1, None)) as H1
    by (apply newTracedProc_run_ok; vm_compute; reflexivity).
  assert (run traps_S1 proc_S1
            = (fst (run traps_S1 proc_S1), snd (run traps_S1 proc_S1))) as H2
    by apply surjective_pairing.
  assert (completed (fst (run traps_S1 proc_S1))) as H3
    by (vm_compute; repeat constructor).
  split_and!; [exact H1|vm_compute; reflexivity|].
  exact (proj2 (proj2
    (armed_addresses_are_the_keys _ _ _ _ _ _ _ _ _ H1 H2 H3))).
Defined.

(** C8 as stated fails after a completed call that follows a failed one.
    At the first trap of [traps_two] the End function of the first region
    fails: the region is left with the address 0x401000, whose breakpoint
    has been removed.  The second trap is handled without error, and after
    it the first region is still armed at 0x401000, which is not a key of
    the table. *)
Lemma armed_address_lost_after_a_failed_call :
  newTracedProc 7 pie0 [funcRegion 4198400; addressRegion 4198964 4199168]
    ∅ tracee0 = (Some proc_two, None) ∧
  snd <$> fst (run traps_two proc_two)
    = [Some ErrRegionEndUnresolved; None] ∧
  curInterrupt <$> regions (snd (run traps_two proc_two))
    = [4198400; 4199168] ∧
  breakpoints (snd (run traps_two proc_two)) = {[ 4199168 := [xc3] ]} ∧
  breakpoints (snd (run traps_two proc_two)) !! 4198400 = None ∧
  ¬ (∀ r, r ∈ regions (snd (run traps_two proc_two)) →
          is_Some (breakpoints (snd (run traps_two proc_two))
                     !! curInterrupt r)).
Proof.
  assert (curInterrupt <$> regions (snd (run traps_two proc_two))
            = [4198400; 4199168]) as Hc by (vm_compute; reflexivity).
  assert (breakpoints (snd (run traps_two proc_two)) !! 4198400 = None)
    as Hn by (vm_compute; reflexivity).
  split_and!;
    [apply newTracedProc_run_ok; vm_compute; reflexivity
    |vm_compute; reflexivity|exact Hc|vm_compute; reflexivity|exact Hn|].
  intros Hall.
  assert (Forall (λ a, is_Some (breakpoints (snd (run traps_two proc_two))
                                  !! a))
            (curInterrupt <$> regions (snd (run traps_two proc_two)))) as HF.
  { apply Forall_fmap, Forall_forall. intros r Hr. by apply Hall. }
  rewrite Hc in HF. apply Forall_cons in HF as [[o Ho] _]. congruence.
Qed.


(** C6, as the code has it.  When the End function of a region fails during
    a Start trap (the loop having got through the regions before it without
    error), [handleInterrupt] returns the nil event list, the event appended
    for the region being dropped, together with the error of the End
    function; the region is left in state End with its recorded address
    still the trap address, and no address is armed for it: the table is as
    the regions before it left it, and when none of them was armed at the
    trap address it is the table before the trap less the Start address. *)
Theorem End_failure_returns_no_event (p p2 pk : Proc) (k : nat)
    (r : activeRegion) (evs_k : list Event) (addr : Z) (e : error) :
  removeBreak (trap_pc p) (rewound p) = (None, p2) →
  handleInterrupt_loop k 0 (trap_regs p) [] p2 = ((evs_k, None), pk) →
  regions p !! k = Some r →
  curInterrupt r = trap_pc p →
  state r = RegionStart →
  End (region r) (Rsp (trap_regs p)) (pieOffset p) (tracer pk)
    = (addr, Some e) →
  let p' := snd (handleInterrupt p) in
  fst (handleInterrupt p) = ([], Some e) ∧
  regions p' !! k = Some (with_state RegionEnd r) ∧
  breakpoints p' = breakpoints pk ∧
  ((∀ j rj, (j < k)%nat → regions p !! j = Some rj →
            curInterrupt rj ≠ trap_pc p) →
     breakpoints p' = delete (trap_pc p) (breakpoints p) ∧
     breakpoints p' !! curInterrupt r = None).
Proof.
  intros Hrm Hk Hr Harmed Hst HE.
  destruct (rewound_frame p) as (Hr0 & Hpie0 & Hb0 & _).
  pose proof Hrm as Hfr.
  apply removeBreak_frame in Hfr as (Hr2 & Hpie2 & _ & _ & _ & Hb2).
  destruct Hb2 as [Hb2 _]; [done|]. rewrite Hb0 in Hb2.
  rewrite Hr0 in Hr2. rewrite Hpie0 in Hpie2.
  assert (k < length (regions p))%nat as Hlt by by eapply lookup_lt_Some.
  pose proof (loop_frame _ _ _ _ _ _ _ Hk) as (Hlenk & Hpiek & _).
  assert (regions pk !! k = Some r) as Hrk.
  { rewrite (loop_untouched _ _ _ _ _ _ _ k Hk) by lia. by rewrite Hr2. }
  assert (handleInterrupt p = (([], Some e), set_state k RegionEnd pk)) as Hh.
  { rewrite handleInterrupt_unfold, Hrm.
    replace (length (regions p2))
      with (k + S (length (regions p) - S k))%nat by (rewrite Hr2; lia).
    rewrite loop_app, Hk.
    apply (loop_End_fails _ _ _ _ _ r addr); [done|done|done|].
    by rewrite Hpiek, Hpie2. }
  rewrite Hh. simpl. split_and!; [done| |done|].
  - rewrite list_lookup_alter_eq, Hrk. done.
  - intros Hfirst.
    assert (pk = p2) as ->.
    { rewrite loop_no_match in Hk; [by injection Hk|].
      intros j rj Hj. rewrite Hr2. apply Hfirst. lia. }
    rewrite Hb2. split; [done|]. rewrite Harmed. apply lookup_delete_eq.
Qed.

Lemma End_failure_returns_no_event_witness :
  handleInterrupt trap_S4
    = (([], Some ErrRegionEndUnresolved), snd (handleInterrupt trap_S4)) ∧
  (state <$> regions (snd (handleInterrupt trap_S4))) = [RegionEnd] ∧
  breakpoints (snd (handleInterrupt trap_S4)) = ∅.
Proof.
  pose (p2 := snd (removeBreak (trap_pc trap_S4) (rewound trap_S4))).
  assert (removeBreak (trap_pc trap_S4) (rewound trap_S4) = (None, p2))
    as H1 by (apply pair_eta; vm_compute; reflexivity).
  assert (handleInterrupt_loop 0 0 (trap_regs trap_S4) [] p2 = (([], None), p2))
    as H2 by reflexivity.
  assert (regions trap_S4 !! 0%nat
            = Some (mkActive (funcRegion 4198400) RegionStart 4198400 0))
    as H3 by reflexivity.
  assert (End (funcRegion 4198400) (Rsp (trap_regs trap_S4))
            (pieOffset trap_S4) (tracer p2)
          = (0, Some ErrRegionEndUnresolved)) as H4
    by (vm_compute; reflexivity).
  destruct (End_failure_returns_no_event trap_S4 p2 p2 0 _ [] 0
              ErrRegionEndUnresolved H1 H2 H3 eq_refl eq_refl H4)
    as (Hout & _ & _ & Hfirst).
  split_and!; [|vm_compute; reflexivity|].
  - by apply pair_eta.
  - destruct Hfirst as [-> _]; [intros j rj Hj; lia|].
    vm_compute. reflexivity.
Defined.

(** C6 as stated fails: at the first trap of S4 the region with id 0 is
    armed at the trap address in state Start and its End function fails;
    [handleInterrupt] returns the error with an empty event list, not with
    the event [{0, Start}]. *)
Lemma End_failure_event_is_dropped :
  (λ r, (id r, state r, curInterrupt r)) <$> regions trap_S4
    = [(0%nat, RegionStart, 4198400)] ∧
  trap_pc trap_S4 = 4198400 ∧
  snd (fst (handleInterrupt trap_S4)) = Some ErrRegionEndUnresolved ∧
  fst (fst (handleInterrupt trap_S4)) = [] ∧
  bool_decide (mkEvent 0 RegionStart ∈ fst (fst (handleInterrupt trap_S4)))
    = false.
Proof.
  split_and!; vm_compute; reflexivity.
Qed.

(** C7, as the code has it.  [newTracedProc] goes by the regions, not by the
    inherited map: the entry of the map at a region's Start address is
    copied, no other entry of the map is; [setBreak] is called, and the
    tracee peeked and poked, only at the Start addresses that are not keys
    of the map.  When every Start address is a key of the map, construction
    cannot fail, issues no tracing call at all, and the table is the map
    restricted to the Start addresses: it is the whole map exactly when
    every key of the map is the Start address of a region. *)
Theorem newTracedProc_inherited (pid : Z) (pie : PieOffsetter)
    (rs : list Region) (breaks : gmap Z (list byte)) (w : Tracer) (off : Z) :
  pie pid = (off, None) →
  let starts := (λ r, Start r off) <$> rs in
  (∀ p, newTracedProc pid pie rs breaks w = (Some p, None) →
     (∀ a, a ∈ starts → is_Some (breaks !! a) →
           breakpoints p !! a = breaks !! a) ∧
     (∀ a, a ∉ starts → breakpoints p !! a = None) ∧
     ∃ l, t_log (tracer p) = t_log w ++ l ∧
          Forall (λ c, ∃ a, syscall_addr c = Some a ∧ a ∈ starts ∧
                            breaks !! a = None) l) ∧
  ((∀ a, a ∈ starts → is_Some (breaks !! a)) →
     ∃ p, newTracedProc pid pie rs breaks w = (Some p, None) ∧
          tracer p = NewTracer pid w ∧
          (∀ a, breakpoints p !! a
                = if decide (a ∈ starts) then breaks !! a else None) ∧
          ((∀ a, is_Some (breaks !! a) → a ∈ starts) →
             breakpoints p = breaks)).
Proof.
  intros Hpie starts.
  assert (∀ p, newTracedProc pid pie rs breaks w = (Some p, None) →
     (∀ a, a ∈ starts → is_Some (breaks !! a) →
           breakpoints p !! a = breaks !! a) ∧
     (∀ a, a ∉ starts → breakpoints p !! a = None) ∧
     ∃ l, t_log (tracer p) = t_log w ++ l ∧
          Forall (λ c, ∃ a, syscall_addr c = Some a ∧ a ∈ starts ∧
                            breaks !! a = None) l) as Hgen.
  { intros p Hnew. apply newTracedProc_ok in Hnew as (off' & Hpie' & Hloop).
    assert (off' = off) as -> by congruence.
    apply new_loop_ok in Hloop as (_ & _ & _ & _ & _ & Hin & Hout & Hlog).
    simpl in *. split_and!; [exact Hin| |exact Hlog].
    intros a Ha. by rewrite (Hout a Ha). }
  split; [exact Hgen|].
  intros Hall.
  destruct (new_loop_inherited breaks rs 0
              (mkProc (NewTracer pid w) [] off false ∅) Hall)
    as (p & Hloop & Htr).
  assert (newTracedProc pid pie rs breaks w = (Some p, None)) as Hnew.
  { rewrite (newTracedProc_unfold _ _ _ _ _ _ Hpie), Hloop. done. }
  destruct (Hgen p Hnew) as (Hin & Hout & _).
  assert (∀ a, breakpoints p !! a
               = if decide (a ∈ starts) then breaks !! a else None) as Hlk.
  { intros a. destruct (decide _) as [Ha|Ha]; [|by apply Hout].
    apply Hin; [done|]. by apply Hall. }
  exists p. split_and!; [done|done|done|].
  intros Hkeys. apply map_eq. intros a. rewrite Hlk.
  destruct (decide _) as [Ha|Ha]; [done|].
  destruct (breaks !! a) as [o|] eqn:Ho; [|done].
  destruct Ha. apply Hkeys. by rewrite Ho.
Qed.

Lemma newTracedProc_inherited_witness :
  pie0 8 = (0, None) ∧
  ∃ p, newTracedProc 8 pie0 [funcRegion 4198400] breaks_S5 tracee_S5
         = (Some p, None) ∧
       tracer p = NewTracer 8 tracee_S5 ∧
       breakpoints p = breaks_S5.
Proof.
  assert (pie0 8 = (0, None)) as H by reflexivity.
  split; [exact H|].
  assert (∀ a, a ∈ (λ r, Start r 0) <$> [funcRegion 4198400] →
               is_Some (breaks_S5 !! a)) as Hall.
  { intros a Ha. apply list_elem_of_singleton in Ha as ->.
    vm_compute. eauto. }
  destruct (proj2 (newTracedProc_inherited 8 pie0 [funcRegion 4198400]
                     breaks_S5 tracee_S5 0 H) Hall)
    as (p & Hnew & Htr & _ & Heq).
  exists p. split_and!; [exact Hnew|exact Htr|].
  apply Heq. intros a [o Ho]. unfold breaks_S5 in Ho.
  apply lookup_singleton_Some in Ho as [<- _]. by left.
Defined.

(** C7 as stated fails.  A child forked while its parent was inside the
    function inherits a map whose only key is the armed return address
    0x401234: [newTracedProc] peeks and pokes the Start address 0x401000,
    which the map does not hold, and builds the table [{0x401000: [0x55]}],
    which is not the parent's map. *)
Lemma inherited_map_is_not_the_table :
  snd (newTracedProc 8 pie0 [funcRegion 4198400] breaks_fork tracee_fork)
    = None ∧
  breakpoints
    <$> fst (newTracedProc 8 pie0 [funcRegion 4198400] breaks_fork tracee_fork)
    = Some {[ 4198400 := [x55] ]} ∧
  breaks_fork !! 4198400 = None ∧
  breaks_fork !! 4198964 = Some [x90] ∧
  (t_log ∘ tracer)
    <$> fst (newTracedProc 8 pie0 [funcRegion 4198400] breaks_fork tracee_fork)
    = Some [SysPeek 4198400 1; SysPoke 4198400 [xcc]].
Proof. split_and!; vm_compute; reflexivity. Qed.

(** * Further properties of the engine *)

(** ** One byte of tracee memory *)

Lemma PeekData_one a t orig t' :
  PeekData a 1 t = ((orig, None), t') →
  ∃ b, orig = [b] ∧ t_mem t !! a = Some b.
Proof.
  unfold PeekData. destruct (tick _ t) as [f t1] eqn:Ht.
  apply tick_frame in Ht as (Hm & _). destruct f; [done|]. simpl.
  rewrite Hm. destruct (t_mem t !! a) as [b|]; [|done].
  intros [= <- <-]. eauto.
Qed.

Lemma PokeData_one a b t t' :
  PokeData a [b] t = (None, t') →
  is_Some (t_mem t !! a) ∧ t_mem t' = <[a := b]> (t_mem t).
Proof.
  unfold PokeData. destruct (tick _ t) as [f t1] eqn:Ht.
  apply tick_frame in Ht as (Hm & _). destruct f; [done|]. simpl.
  rewrite Hm. destruct (t_mem t !! a) as [b0|]; [|done].
  intros [= <-]. simpl. eauto.
Qed.

(** The tracer fails with errors of its own. *)
Lemma PeekData_error a n t r e t' :
  PeekData a n t = ((r, Some e), t') → ∃ k, e = ErrTracer k.
Proof.
  unfold PeekData. destruct (tick _ _) as [[f|] t0].
  - intros [= _ <- _]. eauto.
  - destruct (read_bytes _ _ _); intros [= _ <- _]. eauto.
Qed.

Lemma PokeData_error a d t e t' :
  PokeData a d t = (Some e, t') → ∃ k, e = ErrTracer k.
Proof.
  unfold PokeData. destruct (tick _ _) as [[f|] t0].
  - intros [= <- _]. eauto.
  - destruct (write_bytes _ _ _); intros [= <- _]. eauto.
Qed.

(** Everything [setBreak] can do to the table and to the tracee's memory. *)
Lemma setBreak_mem a p e p' :
  setBreak a p = (e, p') →
  match e with
  | None =>
      (is_Some (breakpoints p !! a) ∧ p' = p) ∨
      (breakpoints p !! a = None ∧
       ∃ b, t_mem (tracer p) !! a = Some b ∧
            breakpoints p' = <[a := [b]]> (breakpoints p) ∧
            t_mem (tracer p') = <[a := xcc]> (t_mem (tracer p)))
  | Some _ =>
      breakpoints p !! a = None ∧ breakpoints p' = breakpoints p ∧
      t_mem (tracer p') = t_mem (tracer p)
  end.
Proof.
  unfold setBreak, uintptr.
  destruct (breakpoints p !! a) as [o|] eqn:Ho.
  { intros [= <- <-]. left. eauto. }
  change (length interrupt) with 1%nat. unfold interrupt.
  destruct (PeekData _ _ _) as [[orig err] t1] eqn:Hpeek.
  pose proof (PeekData_frame _ _ _ _ _ Hpeek) as (Hm1 & _).
  destruct err.
  { intros [= <- <-]. simpl. by rewrite Hm1. }
  apply PeekData_one in Hpeek as (b & -> & Hb).
  destruct (PokeData _ _ _) as [err t2] eqn:Hpoke.
  destruct err.
  - apply PokeData_frame in Hpoke as (_ & _ & Hm2).
    intros [= <- <-]. simpl. rewrite Hm2 by done. by rewrite Hm1.
  - apply PokeData_one in Hpoke as (_ & Hm2).
    intros [= <- <-]. simpl. right. split; [done|]. exists b.
    rewrite Hm2, Hm1. done.
Qed.

(** [removeBreak] on an entry of one byte. *)
Lemma removeBreak_mem a p b e p' :
  breakpoints p !! a = Some [b] →
  removeBreak a p = (e, p') →
  breakpoints p' = delete a (breakpoints p) ∧
  match e with
  | None => t_mem (tracer p') = <[a := b]> (t_mem (tracer p))
  | Some _ => t_mem (tracer p') = t_mem (tracer p)
  end.
Proof.
  intros Ho. unfold removeBreak, uintptr. rewrite Ho.
  destruct (PokeData _ _ _) as [err t1] eqn:Hpoke.
  intros [= <- <-]. simpl. split; [done|]. destruct err as [e0|].
  - apply PokeData_frame in Hpoke as (_ & _ & Hm0). by apply Hm0.
  - apply PokeData_one in Hpoke as (_ & Hm0). exact Hm0.
Qed.

(** ** What the loop of [handleInterrupt] keeps *)

(** A property of the Proc that [setBreak] keeps, and that a region keeps
    when it is given the state Start or End or another armed address, is
    kept by the loop, whatever it returns. *)
Lemma loop_preserves (I : Proc → Prop) :
  (∀ a p e p', I p → setBreak a p = (e, p') → I p') →
  (∀ i s p, s ≠ RegionOther → I p → I (set_state i s p)) →
  (∀ i a p, I p → I (set_curInterrupt i a p)) →
  ∀ n i regs evs p out p',
    I p → handleInterrupt_loop n i regs evs p = (out, p') → I p'.
Proof.
  intros Hset Hst Hcur. induction n as [|n IH];
    intros i regs evs p out p' HI; simpl.
  { by intros [= <- <-]. }
  destruct (regions p !! i) as [r|]; [|by intros [= <- <-]].
  destruct (decide _) as [Heq|Hne]; [|by apply IH].
  destruct (state r).
  - destruct (End _ _ _ _) as [addr [e0|]].
    { intros [= <- <-]. by apply Hst. }
    destruct (setBreak _ _) as [[e|] p3] eqn:Hs.
    + intros [= <- <-]. eapply Hset; [|exact Hs]. by apply Hcur, Hst.
    + apply IH. eapply Hset; [|exact Hs]. by apply Hcur, Hst.
  - destruct (setBreak _ _) as [[e|] p3] eqn:Hs.
    + intros [= <- <-]. eapply Hset; [|exact Hs]. by apply Hcur, Hst.
    + apply IH. eapply Hset; [|exact Hs]. by apply Hcur, Hst.
  - by intros [= <- <-].
Qed.

Lemma setBreak_patched a p e p' :
  patched p → setBreak a p = (e, p') → patched p'.
Proof.
  intros Hp Hs. apply setBreak_mem in Hs. unfold patched in *.
  destruct e as [e|].
  - destruct Hs as (_ & -> & ->). done.
  - destruct Hs as [[_ ->]|(Hn & b & Hb & -> & ->)]; [done|].
    intros x o. destruct (decide (a = x)) as [<-|Hne].
    + rewrite !lookup_insert_eq. by intros [= <-].
    + rewrite !lookup_insert_ne by done. apply Hp.
Qed.

Lemma removeBreak_patched a p e p' :
  patched p → removeBreak a p = (e, p') → patched p'.
Proof.
  intros Hp Hr. destruct (breakpoints p !! a) as [o|] eqn:Ho; cycle 1.
  { unfold removeBreak, uintptr in Hr. rewrite Ho in Hr.
    by injection Hr as <- <-. }
  destruct (Hp a o Ho) as [Hlen _].
  destruct o as [|b [|? ?]]; try done.
  pose proof (removeBreak_mem _ _ _ _ _ Ho Hr) as [Hb Hm].
  unfold patched in *. rewrite Hb. intros x o Hx.
  apply lookup_delete_Some in Hx as [Hne Hx].
  destruct (Hp x o Hx) as [? Hcc]. split; [done|].
  destruct e; rewrite Hm; [done|]. by rewrite lookup_insert_ne.
Qed.

Lemma setBreak_text a p e p' x :
  setBreak a p = (e, p') → text_at p' x = text_at p x.
Proof.
  intros Hs. apply setBreak_mem in Hs. unfold text_at.
  destruct e as [e|].
  - destruct Hs as (_ & -> & ->). done.
  - destruct Hs as [[_ ->]|(Hn & b & Hb & -> & ->)]; [done|].
    destruct (decide (a = x)) as [<-|Hne].
    + by rewrite lookup_insert_eq, Hn, Hb.
    + by rewrite !lookup_insert_ne.
Qed.

(** ** Installing and removing one breakpoint *)

(** X1. A [setBreak] that returns nil on an address that is not a key reads
    the byte the tracee holds there, writes the trap opcode over it and
    records the byte read; it issues exactly that peek and that poke, and
    leaves the rest of the memory and of the table alone. *)
Theorem setBreak_installs (a : Z) (p p' : Proc) :
  breakpoints p !! a = None →
  setBreak a p = (None, p') →
  ∃ b, t_mem (tracer p) !! a = Some b ∧
       breakpoints p' = <[a := [b]]> (breakpoints p) ∧
       t_mem (tracer p') = <[a := xcc]> (t_mem (tracer p)) ∧
       t_log (tracer p')
         = t_log (tracer p) ++ [SysPeek a 1; SysPoke a [xcc]].
Proof.
  intros Hn Hs. pose proof (setBreak_mem _ _ _ _ Hs) as Hm. simpl in Hm.
  destruct Hm as [[[o Ho] _]|(_ & b & Hb & Ht & Hmem)]; [congruence|].
  exists b. split_and!; [done|done|done|].
  unfold setBreak, uintptr in Hs. rewrite Hn in Hs.
  change (length interrupt) with 1%nat in Hs. unfold interrupt in Hs.
  destruct (PeekData _ _ _) as [[orig err] t1] eqn:Hpeek.
  apply PeekData_frame in Hpeek as (_ & _ & Hl1). destruct err; [done|].
  destruct (PokeData _ _ _) as [err t2] eqn:Hpoke.
  apply PokeData_frame in Hpoke as (_ & Hl2 & _). destruct err; [done|].
  injection Hs as <-. simpl. rewrite Hl2, Hl1, <-app_assoc. done.
Qed.

Lemma setBreak_installs_witness :
  breakpoints trap_S1 !! 4198964 = None ∧
  t_mem (tracer trap_S1) !! 4198964 = Some x90 ∧
  breakpoints (snd (setBreak 4198964 trap_S1)) !! 4198964 = Some [x90] ∧
  t_mem (tracer (snd (setBreak 4198964 trap_S1))) !! 4198964 = Some xcc.
Proof.
  assert (breakpoints trap_S1 !! 4198964 = None) as H1
    by (vm_compute; reflexivity).
  assert (setBreak 4198964 trap_S1 = (None, snd (setBreak 4198964 trap_S1)))
    as H2 by (apply pair_eta; vm_compute; reflexivity).
  destruct (setBreak_installs _ _ _ H1 H2) as (b & Hb & Ht & Hm & _).
  assert (t_mem (tracer trap_S1) !! 4198964 = Some x90) as H3
    by (vm_compute; reflexivity).
  assert (b = x90) as -> by congruence.
  split_and!; [exact H1|exact H3| |].
  - rewrite Ht. apply lookup_insert_eq.
  - rewrite Hm. apply lookup_insert_eq.
Defined.

(** X2. [setBreak] fails only with an error of the tracer, on an address
    that is not a key, and then the table, the regions and the tracee's
    memory are what they were: unlike [removeBreak] it leaves nothing half
    done. *)
Theorem setBreak_failure_changes_nothing (a : Z) (p p' : Proc) (e : error) :
  setBreak a p = (Some e, p') →
  (∃ n, e = ErrTracer n) ∧
  breakpoints p !! a = None ∧
  breakpoints p' = breakpoints p ∧
  regions p' = regions p ∧
  t_mem (tracer p') = t_mem (tracer p).
Proof.
  intros Hs. pose proof (setBreak_mem _ _ _ _ Hs) as (Hn & Hb & Hm).
  pose proof (setBreak_frame _ _ _ _ Hs) as (Hr & _).
  split_and!; try done.
  unfold setBreak, uintptr in Hs. rewrite Hn in Hs.
  destruct (PeekData _ _ _) as [[orig err] t1] eqn:Hpeek.
  destruct err as [e1|].
  { assert (e1 = e) as -> by congruence. by eapply PeekData_error. }
  destruct (PokeData _ _ _) as [[e2|] t2] eqn:Hpoke; [|done].
  assert (e2 = e) as -> by congruence. by eapply PokeData_error.
Qed.

Lemma setBreak_failure_changes_nothing_witness :
  setBreak 1 trap_S1
    = (Some (ErrTracer MemoryAccess), snd (setBreak 1 trap_S1)) ∧
  breakpoints (snd (setBreak 1 trap_S1)) = breakpoints trap_S1 ∧
  t_mem (tracer (snd (setBreak 1 trap_S1))) = t_mem (tracer trap_S1).
Proof.
  assert (setBreak 1 trap_S1
            = (Some (ErrTracer MemoryAccess), snd (setBreak 1 trap_S1)))
    as H by (apply pair_eta; vm_compute; reflexivity).
  destruct (setBreak_failure_changes_nothing _ _ _ _ H)
    as (_ & _ & Hb & _ & Hm).
  split_and!; [exact H|exact Hb|exact Hm].
Defined.

(** X3. Round trip: [setBreak] on an address that is not a key followed by
    [removeBreak] of the same address, both returning nil, gives back the
    table and the tracee's memory exactly as they were. *)
Theorem setBreak_removeBreak_roundtrip (a : Z) (p p1 p2 : Proc) :
  breakpoints p !! a = None →
  setBreak a p = (None, p1) →
  removeBreak a p1 = (None, p2) →
  breakpoints p2 = breakpoints p ∧
  t_mem (tracer p2) = t_mem (tracer p).
Proof.
  intros Hn Hs Hr. pose proof (setBreak_mem _ _ _ _ Hs) as Hm. simpl in Hm.
  destruct Hm as [[[o Ho] _]|(_ & b & Hb & Ht & Hmem)]; [congruence|].
  assert (breakpoints p1 !! a = Some [b]) as H1
    by (rewrite Ht; apply lookup_insert_eq).
  destruct (removeBreak_mem _ _ _ _ _ H1 Hr) as [Ht2 Hm2].
  rewrite Ht2, Hm2, Ht, Hmem. split.
  - rewrite delete_insert_eq. by apply delete_id.
  - rewrite insert_insert_eq. by apply insert_id.
Qed.

Lemma setBreak_removeBreak_roundtrip_witness :
  breakpoints trap_S1 !! 4198964 = None ∧
  breakpoints (snd (removeBreak 4198964 (snd (setBreak 4198964 trap_S1))))
    = breakpoints trap_S1 ∧
  t_mem (tracer (snd (removeBreak 4198964 (snd (setBreak 4198964 trap_S1)))))
    = t_mem (tracer trap_S1).
Proof.
  assert (breakpoints trap_S1 !! 4198964 = None) as H1
    by (vm_compute; reflexivity).
  assert (setBreak 4198964 trap_S1 = (None, snd (setBreak 4198964 trap_S1)))
    as H2 by (apply pair_eta; vm_compute; reflexivity).
  assert (removeBreak 4198964 (snd (setBreak 4198964 trap_S1))
    = (None, snd (removeBreak 4198964 (snd (setBreak 4198964 trap_S1)))))
    as H3 by (apply pair_eta; vm_compute; reflexivity).
  split; [exact H1|].
  exact (setBreak_removeBreak_roundtrip _ _ _ _ H1 H2 H3).
Defined.

(** ** What [handleInterrupt] keeps *)

Lemma fmap_alter_same {A B} (f : A → B) (g : A → A) i (l : list A) :
  (∀ x, f (g x) = f x) → f <$> alter g i l = f <$> l.
Proof.
  intros Hfg. apply list_eq. intros j. rewrite !list_lookup_fmap.
  destruct (decide (i = j)) as [<-|Hne].
  - rewrite list_lookup_alter_eq. destruct (l !! i); simpl; [|done].
    by rewrite Hfg.
  - by rewrite list_lookup_alter_ne.
Qed.

Lemma loop_error_no_events n : ∀ i regs evs0 p evs e p',
  handleInterrupt_loop n i regs evs0 p = ((evs, Some e), p') → evs = [].
Proof.
  induction n as [|n IH]; intros i regs evs0 p evs e p'; simpl; [done|].
  destruct (regions p !! i) as [r|]; [|done].
  destruct (decide _) as [Heq|Hne]; [|apply IH].
  destruct (state r).
  - destruct (End _ _ _ _) as [addr [e0|]]; [by intros [= <- _ _]|].
    destruct (setBreak _ _) as [[e1|] p3]; [by intros [= <- _ _]|apply IH].
  - destruct (setBreak _ _) as [[e1|] p3]; [by intros [= <- _ _]|apply IH].
  - by intros [= <- _ _].
Qed.

(** X4. Whenever [handleInterrupt] returns an error the event list it
    returns is nil: the events collected before the failure never reach the
    caller. *)
Theorem handleInterrupt_error_no_events (p : Proc) (evs : list Event)
    (e : error) (p' : Proc) :
  handleInterrupt p = ((evs, Some e), p') → evs = [].
Proof.
  rewrite handleInterrupt_unfold.
  destruct (removeBreak _ _) as [[e1|] p1]; [by intros [= <- _ _]|].
  apply loop_error_no_events.
Qed.

Lemma handleInterrupt_error_no_events_witness :
  handleInterrupt trap_S4
    = (([], Some ErrRegionEndUnresolved), snd (handleInterrupt trap_S4)) ∧
  event_of <$> armed_at (trap_pc trap_S4) (regions trap_S4)
    = [mkEvent 0 RegionStart].
Proof.
  assert (handleInterrupt trap_S4
            = ((fst (fst (handleInterrupt trap_S4)),
                Some ErrRegionEndUnresolved), snd (handleInterrupt trap_S4)))
    as H.
  { apply pair_eta. apply pair_eta. vm_compute. reflexivity. }
  rewrite (handleInterrupt_error_no_events _ _ _ _ H) in H.
  split; [exact H|]. vm_compute. reflexivity.
Defined.

Lemma handleInterrupt_keeps_regions p out p' :
  handleInterrupt p = (out, p') →
  pieOffset p' = pieOffset p ∧
  exited p' = exited p ∧
  id <$> regions p' = id <$> regions p ∧
  region <$> regions p' = region <$> regions p.
Proof.
  set (I := λ q : Proc,
    pieOffset q = pieOffset p ∧ exited q = exited p ∧
    id <$> regions q = id <$> regions p ∧
    region <$> regions q = region <$> regions p).
  assert (∀ a q e q', I q → setBreak a q = (e, q') → I q') as Hset.
  { intros a q e q' HI Hs.
    apply setBreak_frame in Hs as (Hr & Hpie & Hex & _).
    unfold I in *. by rewrite Hr, Hpie, Hex. }
  assert (∀ i s q, s ≠ RegionOther → I q → I (set_state i s q)) as Hst.
  { intros i s q _ (? & ? & Hid & Hreg). unfold I. simpl.
    rewrite !fmap_alter_same by done. done. }
  assert (∀ i a q, I q → I (set_curInterrupt i a q)) as Hcur.
  { intros i a q (? & ? & Hid & Hreg). unfold I. simpl.
    rewrite !fmap_alter_same by done. done. }
  rewrite handleInterrupt_unfold.
  destruct (rewound_frame p) as (Hr0 & Hpie0 & _).
  assert (I (rewound p)) as H0 by (unfold I; by rewrite Hr0, Hpie0).
  destruct (removeBreak _ _) as [e1 p1] eqn:Hrm.
  apply removeBreak_frame in Hrm as (Hr1 & Hpie1 & Hex1 & _).
  assert (I p1) as H1.
  { unfold I in *. by rewrite Hr1, Hpie1, Hex1. }
  destruct e1; [by intros [= _ <-]|].
  intros Hloop. exact (loop_preserves I Hset Hst Hcur _ _ _ _ _ _ _ H1 Hloop).
Qed.

(** X5. Whatever it returns, [handleInterrupt] leaves the PIE offset and
    the exited flag alone and neither adds, drops nor reorders regions: the
    ids and the region descriptors of the active regions are what they
    were. *)
Theorem handleInterrupt_frame (p : Proc)
    (out : list Event * option error) (p' : Proc) :
  handleInterrupt p = (out, p') →
  pieOffset p' = pieOffset p ∧
  exited p' = exited p ∧
  id <$> regions p' = id <$> regions p ∧
  region <$> regions p' = region <$> regions p.
Proof. apply handleInterrupt_keeps_regions. Qed.

Lemma handleInterrupt_frame_witness :
  id <$> regions (snd (handleInterrupt trap_S3)) = [0%nat; 1%nat] ∧
  exited (snd (handleInterrupt trap_S3)) = false.
Proof.
  destruct (handleInterrupt_frame trap_S3 _ _
              (surjective_pairing (handleInterrupt trap_S3)))
    as (_ & Hex & Hid & _).
  split; [rewrite Hid|rewrite Hex]; vm_compute; reflexivity.
Defined.

(** X6. The agreement of the table with the tracee's memory survives
    [handleInterrupt], whatever it returns: when every entry saved one byte
    and the tracee held the trap opcode at every key before the call, the
    same holds after it. *)
Theorem handleInterrupt_patched (p : Proc)
    (out : list Event * option error) (p' : Proc) :
  patched p →
  handleInterrupt p = (out, p') →
  patched p'.
Proof.
  intros Hp. rewrite handleInterrupt_unfold.
  destruct (rewound_frame p) as (_ & _ & Hb0 & Hm0 & _).
  assert (patched (rewound p)) as H0.
  { unfold patched. rewrite Hb0, Hm0. exact Hp. }
  destruct (removeBreak _ _) as [e1 p1] eqn:Hrm.
  apply removeBreak_patched in Hrm; [|done].
  destruct e1; [by intros [= _ <-]|].
  apply (loop_preserves patched); [|done|done|done].
  intros a q e q' Hq Hs. by eapply setBreak_patched.
Qed.

(** X7. [handleInterrupt] does not alter the program of the tracee: when
    the table agrees with the memory and the saved byte at the trap address
    can be written back, the byte of the program at every address, beneath
    the breakpoints, is after the call what it was before, whatever the
    call returns. *)
Theorem handleInterrupt_keeps_text (p : Proc)
    (out : list Event * option error) (p' : Proc) :
  patched p →
  unpatch_ok p →
  handleInterrupt p = (out, p') →
  ∀ x, text_at p' x = text_at p x.
Proof.
  intros Hp Hok. rewrite handleInterrupt_unfold.
  destruct (rewound_frame p) as (_ & _ & Hb0 & Hm0 & _).
  assert (∀ x, text_at (rewound p) x = text_at p x) as H0.
  { intros x. unfold text_at. by rewrite Hb0, Hm0. }
  destruct (removeBreak _ _) as [e1 p1] eqn:Hrm.
  assert (∀ x, text_at p1 x = text_at p x) as H1.
  { intros x. rewrite <-H0.
    destruct (breakpoints p !! trap_pc p) as [o|] eqn:Ho; cycle 1.
    { unfold removeBreak, uintptr in Hrm. rewrite Hb0, Ho in Hrm.
      by injection Hrm as _ <-. }
    destruct (Hp _ _ Ho) as [Hlen _].
    destruct o as [|b [|? ?]]; try done.
    assert (breakpoints (rewound p) !! trap_pc p = Some [b]) as Ho'
      by by rewrite Hb0.
    pose proof (removeBreak_mem _ _ _ _ _ Ho' Hrm) as [Ht Hm].
    assert (e1 = None) as ->.
    { specialize (Hok _ Ho). unfold removeBreak, uintptr in Hrm.
      rewrite Ho' in Hrm. destruct (PokeData _ _ _) as [err t1].
      simpl in Hok. congruence. }
    unfold text_at. rewrite Ht, Hm.
    destruct (decide (trap_pc p = x)) as [<-|Hne].
    - by rewrite lookup_delete_eq, lookup_insert_eq, Ho'.
    - by rewrite lookup_delete_ne, lookup_insert_ne. }
  destruct e1; [by intros [= _ <-]|].
  intros Hloop x. rewrite <-H1.
  apply (loop_preserves (λ q, text_at q x = text_at p1 x))
    with (p := p1) in Hloop; try done.
  intros a q e q' Hq Hs. by rewrite (setBreak_text _ _ _ _ _ Hs).
Qed.

(** The first trap of S1: the table agrees with the memory, and the saved
    byte can be written back. *)
Lemma trap_S1_patched : patched trap_S1.
Proof.
  assert (breakpoints trap_S1 = {[ 4198400 := [x55] ]}) as Hb
    by (vm_compute; reflexivity).
  intros a o Ho. rewrite Hb in Ho.
  apply lookup_singleton_Some in Ho as [<- <-].
  split; [done|]. vm_compute. reflexivity.
Defined.

Lemma trap_S1_unpatch_ok : unpatch_ok trap_S1.
Proof.
  assert (breakpoints trap_S1 !! trap_pc trap_S1 = Some [x55]) as Hb
    by (vm_compute; reflexivity).
  intros o Ho. assert (o = [x55]) as -> by congruence.
  vm_compute. reflexivity.
Defined.

Lemma handleInterrupt_patched_witness :
  patched trap_S1 ∧
  breakpoints (snd (handleInterrupt trap_S1)) = {[ 4198964 := [x90] ]} ∧
  t_mem (tracer (snd (handleInterrupt trap_S1))) !! 4198964 = Some xcc.
Proof.
  pose proof (handleInterrupt_patched trap_S1 _ _ trap_S1_patched
                (surjective_pairing (handleInterrupt trap_S1))) as H.
  assert (breakpoints (snd (handleInterrupt trap_S1))
            = {[ 4198964 := [x90] ]}) as Hb by (vm_compute; reflexivity).
  split_and!; [exact trap_S1_patched|exact Hb|].
  apply (H 4198964 [x90]). rewrite Hb. apply lookup_insert_eq.
Defined.

Lemma handleInterrupt_keeps_text_witness :
  patched trap_S1 ∧ unpatch_ok trap_S1 ∧
  text_at (snd (handleInterrupt trap_S1)) 4198400 = Some x55 ∧
  text_at (snd (handleInterrupt trap_S1)) 4198964 = Some x90.
Proof.
  pose proof (handleInterrupt_keeps_text trap_S1 _ _ trap_S1_patched
                trap_S1_unpatch_ok
                (surjective_pairing (handleInterrupt trap_S1))) as H.
  split_and!; [exact trap_S1_patched|exact trap_S1_unpatch_ok| |];
    rewrite H; vm_compute; reflexivity.
Defined.

(** X8. A trap at an address that is not a key of the table is turned down
    with [ErrInvalidBreakpoint] after exactly two tracing calls, [GetRegs]
    and [SetRegs]: the regions, the table and the tracee's memory are
    untouched, but the register file has been written back, so that when
    both calls succeed the tracee is left with its instruction pointer
    rewound by one byte. *)
Theorem foreign_trap_is_rewound (p : Proc) :
  breakpoints p !! trap_pc p = None →
  handleInterrupt p = (([], Some ErrInvalidBreakpoint), rewound p) ∧
  regions (rewound p) = regions p ∧
  breakpoints (rewound p) = breakpoints p ∧
  t_mem (tracer (rewound p)) = t_mem (tracer p) ∧
  t_log (tracer (rewound p))
    = t_log (tracer p) ++ [SysGetRegs; SysSetRegs (trap_regs p)] ∧
  (regs_access_ok p →
     Rip (t_regs (tracer (rewound p)))
       = wrap64 (Rip (t_regs (tracer p)) - 1)).
Proof.
  intros Hn. destruct (rewound_frame p) as (Hr & _ & Hb & Hm & Hl).
  split_and!; try done.
  - rewrite handleInterrupt_unfold. unfold removeBreak, uintptr.
    by rewrite Hb, Hn.
  - intros [Hget Hset]. unfold rewound. simpl.
    destruct (SetRegs _ _) as [e t2] eqn:Hs.
    apply SetRegs_frame in Hs as (_ & _ & Hregs). simpl in *.
    rewrite (Hregs Hset). unfold trap_regs.
    destruct (GetRegs (tracer p)) as [r t1] eqn:Hg.
    apply GetRegs_frame in Hg as (_ & _ & _ & Hr1). simpl in *.
    rewrite (Hr1 Hget). done.
Qed.

Lemma foreign_trap_is_rewound_witness :
  breakpoints after_S1 !! 4198400 = None ∧
  Rip (t_regs (tracer (resume (stopped 4198401 2147352576 [] after_S1)
                         after_S1))) = 4198401 ∧
  fst (handleInterrupt
         (resume (stopped 4198401 2147352576 [] after_S1) after_S1))
    = ([], Some ErrInvalidBreakpoint) ∧
  Rip (t_regs (tracer (snd (handleInterrupt
         (resume (stopped 4198401 2147352576 [] after_S1) after_S1)))))
    = 4198400.
Proof.
  set (q := resume (stopped 4198401 2147352576 [] after_S1) after_S1).
  assert (breakpoints q !! trap_pc q = None) as H
    by (vm_compute; reflexivity).
  destruct (foreign_trap_is_rewound q H) as (Hh & _ & _ & _ & _ & Hrip).
  assert (regs_access_ok q) as Hok by (split; vm_compute; reflexivity).
  split_and!; [vm_compute; reflexivity|reflexivity|by rewrite Hh|].
  rewrite Hh. cbn [snd]. rewrite (Hrip Hok). vm_compute. reflexivity.
Defined.

(** ** Construction *)

Lemma setBreak_pid a p e p' :
  setBreak a p = (e, p') → t_pid (tracer p') = t_pid (tracer p).
Proof.
  assert (∀ c t f t', tick c t = (f, t') → t_pid t' = t_pid t) as Htick.
  { intros c t f t'. unfold tick.
    destruct (t_faults t); by intros [= <- <-]. }
  unfold setBreak, uintptr. destruct (breakpoints p !! a); [by intros [= <- <-]|].
  unfold PeekData, PokeData.
  destruct (tick (SysPeek _ _) _) as [f1 t1] eqn:H1. apply Htick in H1.
  destruct f1; [by intros [= <- <-]|].
  destruct (read_bytes _ _ _); [|by intros [= <- <-]].
  destruct (tick (SysPoke _ _) _) as [f2 t2] eqn:H2. apply Htick in H2.
  destruct f2; [intros [= <- <-]; simpl; congruence|].
  destruct (write_bytes _ _ _); intros [= <- <-]; simpl; congruence.
Qed.

(** A property of the Proc that [setBreak] and the copy of an inherited
    entry keep, and that does not depend on the regions, is kept by the
    loop of [newTracedProc], whatever it returns. *)
Lemma new_loop_preserves (I : Proc → Prop) breaks :
  (∀ a p e p', I p → setBreak a p = (e, p') → I p') →
  (∀ a o p, I p → breaks !! a = Some o →
            I (with_breakpoints (<[a := o]> (breakpoints p)) p)) →
  (∀ l p, I p → I (with_regions l p)) →
  ∀ rs k p e p', I p → newTracedProc_loop breaks rs k p = (e, p') → I p'.
Proof.
  intros Hset Hcopy Hreg. induction rs as [|r rs IH];
    intros k p e p' HI; simpl.
  { by intros [= <- <-]. }
  unfold uintptr. destruct (breaks !! _) as [orig|] eqn:Hb.
  - apply IH. apply Hreg. by apply Hcopy.
  - destruct (setBreak _ _) as [[e1|] p1] eqn:Hs.
    + intros [= <- <-]. by eapply Hset.
    + apply IH. apply Hreg. by eapply Hset.
Qed.

Lemma new_loop_shape breaks rs : ∀ k p p',
  newTracedProc_loop breaks rs k p = (None, p') →
  region <$> regions p' = (region <$> regions p) ++ rs ∧
  exited p' = exited p ∧
  t_pid (tracer p') = t_pid (tracer p).
Proof.
  induction rs as [|r rs IH]; intros k p p'; simpl.
  { intros [= <-]. by rewrite app_nil_r. }
  unfold uintptr. destruct (breaks !! _) as [orig|] eqn:Hb.
  - intros H. apply IH in H as (Hr & Hex & Hpid). simpl in *.
    rewrite Hr, fmap_app, <-app_assoc. done.
  - destruct (setBreak _ _) as [[e1|] p1] eqn:Hs; [done|].
    pose proof (setBreak_pid _ _ _ _ Hs) as Hp1.
    apply setBreak_frame in Hs as (Hr1 & _ & Hex1 & _).
    intros H. apply IH in H as (Hr & Hex & Hpid). simpl in *.
    rewrite Hr, fmap_app, <-app_assoc, Hr1. split_and!; [done| |];
      congruence.
Qed.

(** X9. The Proc [newTracedProc] returns is live, runs under the pid and
    the PIE offset it was given, and has one active region per region, in
    the order given: the id of each is its position, its state is Start and
    its armed address its Start address. *)
Theorem newTracedProc_shape (pid : Z) (pie : PieOffsetter)
    (rs : list Region) (breaks : gmap Z (list byte)) (w : Tracer) (p : Proc) :
  newTracedProc pid pie rs breaks w = (Some p, None) →
  pie pid = (pieOffset p, None) ∧
  Pid p = pid ∧
  exited p = false ∧
  region <$> regions p = rs ∧
  id <$> regions p = seq 0 (length rs) ∧
  state <$> regions p = replicate (length rs) RegionStart ∧
  curInterrupt <$> regions p = (λ r, Start r (pieOffset p)) <$> rs.
Proof.
  intros H. apply newTracedProc_ok in H as (off & Hpie & Hloop).
  pose proof (new_loop_shape _ _ _ _ _ Hloop) as (Hreg & Hex & Hpid).
  apply new_loop_ok in Hloop as (Hoff & Hid & Hst & Hcur & _).
  simpl in *. rewrite Hoff. split_and!; done.
Qed.

Lemma newTracedProc_shape_witness :
  newTracedProc 7 pie0 [funcRegion 4198400; addressRegion 4198400 4199168]
    ∅ tracee0 = (Some proc_S3, None) ∧
  Pid proc_S3 = 7 ∧
  id <$> regions proc_S3 = [0%nat; 1%nat] ∧
  curInterrupt <$> regions proc_S3 = [4198400; 4198400].
Proof.
  assert (newTracedProc 7 pie0
            [funcRegion 4198400; addressRegion 4198400 4199168] ∅ tracee0
          = (Some proc_S3, None)) as H
    by (apply newTracedProc_run_ok; vm_compute; reflexivity).
  destruct (newTracedProc_shape _ _ _ _ _ _ H)
    as (_ & Hpid & _ & _ & Hid & _ & Hcur).
  split_and!; [exact H|exact Hpid|exact Hid|].
  rewrite Hcur. vm_compute. reflexivity.
Defined.

(** X10. Construction leaves the table in agreement with the tracee's
    memory, and is not undone when it fails: given an inherited map that
    fits the tracee (in particular a nil map), the Proc built so far,
    whether [newTracedProc] returns it or drops it on an error, has one
    byte saved for every key and the tracee holds the trap opcode at every
    key. *)
Theorem newTracedProc_patched (pid : Z) (pie : PieOffsetter)
    (rs : list Region) (breaks : gmap Z (list byte)) (w : Tracer)
    (e : option error) (p : Proc) :
  inherited_ok breaks w →
  newTracedProc_run pid pie rs breaks w = (e, p) →
  patched p ∧
  newTracedProc pid pie rs breaks w
    = match e with Some e' => (None, Some e') | None => (Some p, None) end.
Proof.
  intros Hin Hrun. split; cycle 1.
  { unfold newTracedProc. by rewrite Hrun. }
  set (I := λ q : Proc, patched q ∧
    ∀ a, t_mem w !! a = Some xcc → t_mem (tracer q) !! a = Some xcc).
  assert (I p) as [Hp _]; [|done].
  unfold newTracedProc_run in Hrun. destruct (pie pid) as [off [e0|]].
  { injection Hrun as _ <-. split; [|done]. intros a o. simpl.
    by rewrite lookup_empty. }
  apply (new_loop_preserves I) in Hrun; [done| | | |].
  - intros a q e1 q' [Hq Hw] Hs. split; [by eapply setBreak_patched|].
    intros x Hx. apply setBreak_mem in Hs. destruct e1 as [e1|].
    + destruct Hs as (_ & _ & ->). by apply Hw.
    + destruct Hs as [[_ ->]|(_ & b & _ & _ & ->)]; [by apply Hw|].
      destruct (decide (a = x)) as [<-|Hne].
      * apply lookup_insert_eq.
      * rewrite lookup_insert_ne by done. by apply Hw.
  - intros a o q [Hq Hw] Hb. split; [|done]. intros x o'. simpl.
    destruct (decide (a = x)) as [<-|Hne].
    + rewrite lookup_insert_eq. intros [= <-].
      destruct (Hin _ _ Hb) as [Hlen Hcc]. split; [done|]. by apply Hw.
    + rewrite lookup_insert_ne by done. apply Hq.
  - by intros l q [Hq Hw].
  - split; [|done]. intros a o. simpl. by rewrite lookup_empty.
Qed.

Lemma newTracedProc_patched_witness :
  inherited_ok ∅ tracee0 ∧
  newTracedProc 7 pie0 regions_unmapped ∅ tracee0
    = (None, Some (ErrTracer MemoryAccess)) ∧
  t_mem (tracer (snd (newTracedProc_run 7 pie0 regions_unmapped ∅ tracee0)))
    !! 4198400 = Some xcc.
Proof.
  assert (inherited_ok ∅ tracee0) as H1.
  { intros a o Ho. by rewrite lookup_empty in Ho. }
  assert (newTracedProc_run 7 pie0 regions_unmapped ∅ tracee0
          = (Some (ErrTracer MemoryAccess),
             snd (newTracedProc_run 7 pie0 regions_unmapped ∅ tracee0)))
    as H2 by (apply pair_eta; vm_compute; reflexivity).
  destruct (newTracedProc_patched _ _ _ _ _ _ _ H1 H2) as [Hp Hnew].
  split_and!; [exact H1|exact Hnew|].
  apply (Hp 4198400 [x55]). vm_compute. reflexivity.
Defined.

Lemma new_loop_text breaks rs : ∀ k p e p',
  (∀ r, r ∈ rs → breaks !! Start r (pieOffset p) = None) →
  newTracedProc_loop breaks rs k p = (e, p') →
  ∀ x, text_at p' x = text_at p x.
Proof.
  induction rs as [|r rs IH]; intros k p e p' Hno; simpl.
  { by intros [= <- <-]. }
  unfold uintptr. rewrite (Hno r) by by left.
  destruct (setBreak _ _) as [[e1|] p1] eqn:Hs.
  - intros [= <- <-] x. by eapply setBreak_text.
  - pose proof (setBreak_frame _ _ _ _ Hs) as (_ & Hpie & _).
    intros H x. eapply IH in H.
    + rewrite H. unfold text_at. simpl. fold (text_at p1 x).
      by eapply setBreak_text.
    + simpl. rewrite Hpie. intros r' Hr'. apply Hno. by right.
Qed.

(** X11. Attaching does not alter the program of the tracee: when the
    inherited map holds no entry at a Start address (in particular when it
    is nil), the byte of the program at every address, beneath the
    breakpoints of the Proc built, is the byte the tracee held before
    [newTracedProc], whether construction succeeds or fails on the way. *)
Theorem newTracedProc_keeps_text (pid : Z) (pie : PieOffsetter)
    (rs : list Region) (breaks : gmap Z (list byte)) (w : Tracer)
    (e : option error) (p : Proc) :
  (∀ r, r ∈ rs → breaks !! Start r (fst (pie pid)) = None) →
  newTracedProc_run pid pie rs breaks w = (e, p) →
  ∀ x, text_at p x = t_mem w !! x.
Proof.
  intros Hno. unfold newTracedProc_run.
  destruct (pie pid) as [off [e0|]]; simpl in Hno.
  { intros [= _ <-] x. unfold text_at. simpl. by rewrite lookup_empty. }
  intros Hloop x.
  rewrite (new_loop_text breaks rs 0
             (mkProc (NewTracer pid w) [] off false ∅) e p Hno Hloop).
  unfold text_at. simpl. by rewrite lookup_empty.
Qed.

Lemma newTracedProc_keeps_text_witness :
  t_mem tracee0 !! 4198400 = Some x55 ∧
  t_mem (tracer proc_S1) !! 4198400 = Some xcc ∧
  text_at proc_S1 4198400 = Some x55.
Proof.
  assert (∀ r, r ∈ [funcRegion 4198400] →
               (∅ : gmap Z (list byte)) !! Start r (fst (pie0 7)) = None)
    as H1 by (intros r _; apply lookup_empty).
  pose proof (newTracedProc_keeps_text 7 pie0 [funcRegion 4198400] ∅ tracee0
                _ _ H1 (surjective_pairing _) 4198400) as H.
  split_and!; [vm_compute; reflexivity|vm_compute; reflexivity|].
  unfold proc_S1. rewrite H. vm_compute. reflexivity.
Defined.

(** ** Continuation and exit *)

(** X12. [cont] touches nothing of the Proc but the tracer: the regions,
    the table, the PIE offset and the exited flag are what they were; and
    once the Proc has exited it does not touch the tracer either, and
    returns nil, whatever the signal and the kind of stop. *)
Theorem cont_frame `{TracerControl} (sig : Z) (groupStop : bool) (p : Proc)
    (e : option error) (p' : Proc) :
  cont sig groupStop p = (e, p') →
  regions p' = regions p ∧
  breakpoints p' = breakpoints p ∧
  pieOffset p' = pieOffset p ∧
  exited p' = exited p ∧
  cont sig groupStop (exit p') = (None, exit p').
Proof.
  unfold cont. destruct (exited p) eqn:Hex.
  - intros [= <- <-]. by split_and!.
  - destruct groupStop;
      [destruct (Listen (tracer p)) as [e1 t1]
      |destruct (Cont sig (tracer p)) as [e1 t1]];
      intros [= <- <-]; by split_and!.
Qed.

Lemma cont_frame_witness :
  @cont scheduled_control 0 false proc_S1
    = (None, snd (@cont scheduled_control 0 false proc_S1)) ∧
  breakpoints (snd (@cont scheduled_control 0 false proc_S1))
    = breakpoints proc_S1.
Proof.
  assert (@cont scheduled_control 0 false proc_S1
            = (None, snd (@cont scheduled_control 0 false proc_S1))) as H
    by (apply pair_eta; vm_compute; reflexivity).
  split; [exact H|].
  exact (proj1 (proj2 (@cont_frame scheduled_control _ _ _ _ _ H))).
Defined.

Lemma setBreak_exit a p :
  setBreak a (exit p) = (fst (setBreak a p), exit (snd (setBreak a p))).
Proof.
  unfold setBreak. simpl. destruct (breakpoints p !! uintptr a); [done|].
  destruct (PeekData _ _ _) as [[orig [e|]] t1]; [done|].
  destruct (PokeData _ _ _) as [[e|] t2]; done.
Qed.

Lemma removeBreak_exit a p :
  removeBreak a (exit p)
    = (fst (removeBreak a p), exit (snd (removeBreak a p))).
Proof.
  unfold removeBreak. simpl. destruct (breakpoints p !! uintptr a); [|done].
  by destruct (PokeData _ _ _) as [e t1].
Qed.

Lemma loop_exit n : ∀ i regs evs p,
  handleInterrupt_loop n i regs evs (exit p)
    = (fst (handleInterrupt_loop n i regs evs p),
       exit (snd (handleInterrupt_loop n i regs evs p))).
Proof.
  induction n as [|n IH]; intros i regs evs p; simpl; [done|].
  destruct (regions p !! i) as [r|]; [|done].
  destruct (decide _) as [Heq|Hne]; [|apply IH].
  destruct (state r); [| |done].
  - destruct (End _ _ _ _) as [addr [e0|]]; [done|].
    change (set_curInterrupt i addr (set_state i RegionEnd (exit p)))
      with (exit (set_curInterrupt i addr (set_state i RegionEnd p))).
    rewrite setBreak_exit.
    destruct (setBreak _ _) as [[e|] p3]; [done|]. apply IH.
  - change (set_curInterrupt i (Start (region r) (pieOffset p))
              (set_state i RegionStart (exit p)))
      with (exit (set_curInterrupt i (Start (region r) (pieOffset p))
                    (set_state i RegionStart p))).
    rewrite setBreak_exit.
    destruct (setBreak _ _) as [[e|] p3]; [done|]. apply IH.
Qed.

(** X13. [handleInterrupt] does not look at the exited flag: on a Proc that
    has exited it issues the same tracing calls, makes the same changes and
    returns the same events and error as on the same Proc before [exit]. *)
Theorem handleInterrupt_ignores_exit (p : Proc) :
  handleInterrupt (exit p)
    = (fst (handleInterrupt p), exit (snd (handleInterrupt p))) ∧
  t_log (tracer (snd (handleInterrupt (exit p))))
    = t_log (tracer (snd (handleInterrupt p))).
Proof.
  assert (handleInterrupt (exit p)
    = (fst (handleInterrupt p), exit (snd (handleInterrupt p)))) as H.
  { rewrite !handleInterrupt_unfold.
    change (trap_pc (exit p)) with (trap_pc p).
    change (trap_regs (exit p)) with (trap_regs p).
    change (rewound (exit p)) with (exit (rewound p)).
    rewrite removeBreak_exit.
    destruct (removeBreak _ _) as [[e|] p1]; [done|]. simpl.
    apply loop_exit. }
  split; [exact H|]. by rewrite H.
Qed.

(** ** The events of one trap *)

Lemma NoDup_ids_armed pc (l : list activeRegion) :
  NoDup (id <$> l) → NoDup (Id <$> (event_of <$> armed_at pc l)).
Proof.
  unfold armed_at. induction l as [|x l IH]; intros Hnd; [constructor|].
  rewrite fmap_cons in Hnd. apply NoDup_cons in Hnd as [Hx Hnd].
  destruct (decide (curInterrupt x = pc)).
  - rewrite filter_cons_True by done. rewrite !fmap_cons.
    apply NoDup_cons. split; [|by apply IH]. simpl. intros Hin.
    apply list_elem_of_fmap in Hin as (ev & Hid & Hev).
    apply list_elem_of_fmap in Hev as (y & -> & Hy).
    apply list_elem_of_filter in Hy as [_ Hy]. simpl in Hid.
    apply Hx. rewrite Hid. by apply list_elem_of_fmap_2.
  - rewrite filter_cons_False by done. by apply IH.
Qed.

Lemma run_events ws : ∀ p outs p',
  run ws p = (outs, p') → completed outs →
  armed_inv p → NoDup (id <$> regions p) →
  Forall (λ out, NoDup (Id <$> fst out) ∧
                 (1 ≤ length (fst out) ≤ length (regions p))%nat) outs.
Proof.
  induction ws as [|w ws IH]; intros p outs p'; simpl.
  { intros [= <- <-] _ _ _. constructor. }
  destruct (handleInterrupt (resume w p)) as [[evs err] p1] eqn:Hh.
  destruct (run ws p1) as [outs1 p2] eqn:Hrun.
  intros [= <- <-] Hc Hinv Hnd.
  apply Forall_cons in Hc as [Herr Hc]. simpl in Herr. subst err.
  pose proof (handleInterrupt_ids _ _ _ Hh) as Hids.
  pose proof (handleInterrupt_armed_inv _ _ _ Hh Hinv) as Hinv1.
  pose proof (handleInterrupt_step _ _ _ Hh) as (Hev & Hlen & _).
  apply handleInterrupt_ok in Hh as (Hin & _).
  change (regions (resume w p)) with (regions p) in *.
  change (breakpoints (resume w p)) with (breakpoints p) in *.
  constructor.
  - simpl. rewrite Hev. split; [by apply NoDup_ids_armed|].
    rewrite length_fmap. split; [|apply length_filter].
    apply elem_of_dom in Hin. rewrite Hinv in Hin.
    apply elem_of_list_to_set, list_elem_of_fmap in Hin as (r & Hpc & Hr).
    assert (r ∈ armed_at (trap_pc (resume w p)) (regions p)) as Hr'
      by (apply list_elem_of_filter; split; done).
    destruct (armed_at _ _); [by apply elem_of_nil in Hr'|simpl; lia].
  - rewrite <-Hlen. apply (IH p1 outs1 p2 Hrun Hc Hinv1). by rewrite Hids.
Qed.

(** X14. From construction on, every trap handled without error yields at
    least one event and at most one per region: the ids of the events of
    one trap are pairwise distinct. *)
Theorem events_of_a_trap (pid : Z) (pie : PieOffsetter) (rs : list Region)
    (breaks : gmap Z (list byte)) (w : Tracer) (p : Proc)
    (ws : list Tracer) (outs : list (list Event * option error)) (p' : Proc) :
  newTracedProc pid pie rs breaks w = (Some p, None) →
  run ws p = (outs, p') →
  completed outs →
  Forall (λ out, NoDup (Id <$> fst out) ∧
                 (1 ≤ length (fst out) ≤ length rs)%nat) outs.
Proof.
  intros Hnew Hrun Hc.
  apply newTracedProc_init in Hnew as (Hinv & Hnd & Hlen & _).
  rewrite <-Hlen. by eapply run_events.
Qed.

Lemma events_of_a_trap_witness :
  newTracedProc 7 pie0 [funcRegion 4198400] ∅ tracee0 = (Some proc_S1, None) ∧
  length <$> (fst <$> fst (run traps_S1 proc_S1)) = [1%nat; 1%nat] ∧
  Forall (λ out, NoDup (Id <$> fst out) ∧
                 (1 ≤ length (fst out) ≤ 1)%nat)
    (fst (run traps_S1 proc_S1)).
Proof.
  assert (newTracedProc 7 pie0 [funcRegion 4198400] ∅ tracee0
            = (Some proc_S1, None)) as H1
    by (apply newTracedProc_run_ok; vm_compute; reflexivity).
  assert (completed (fst (run traps_S1 proc_S1))) as H3
    by (vm_compute; repeat constructor).
  split_and!; [exact H1|vm_compute; reflexivity|].
  exact (events_of_a_trap _ _ _ _ _ _ _ _ _ H1
           (surjective_pairing (run traps_S1 proc_S1)) H3).
Defined.

(** ** Further invariants of a run *)

Lemma handleInterrupt_regs p :
  t_regs (tracer (snd (handleInterrupt p))) = t_regs (tracer (rewound p)).
Proof.
  rewrite handleInterrupt_unfold.
  destruct (removeBreak _ _) as [[e|] p1] eqn:Hrm;
    apply removeBreak_frame in Hrm as (_ & _ & _ & Hr1 & _); [done|].
  destruct (handleInterrupt_loop _ _ _ _ _) as [out p2] eqn:Hloop.
  apply loop_frame in Hloop as (_ & _ & Hr2 & _). cbn [snd]. congruence.
Qed.

(** X15. When [GetRegs] fails, [handleInterrupt] goes on with a zeroed
    register file: it takes 2^64 - 1 for the trap address and, if the
    [SetRegs] that follows succeeds, leaves the tracee with that
    instruction pointer and a null stack pointer, whatever its registers
    were. *)
Theorem GetRegs_failure_zeroes_registers (p : Proc) (e : error) :
  snd (fst (GetRegs (tracer p))) = Some e →
  trap_regs p = mkRegs (2 ^ 64 - 1) 0 ∧
  (fst (SetRegs (trap_regs p) (snd (GetRegs (tracer p)))) = None →
     t_regs (tracer (snd (handleInterrupt p))) = mkRegs (2 ^ 64 - 1) 0).
Proof.
  intros Hget.
  assert (trap_regs p = mkRegs (2 ^ 64 - 1) 0) as Htr.
  { unfold trap_regs. unfold GetRegs in *.
    destruct (tick _ _) as [[f|] t1]; simpl in *; [reflexivity|done]. }
  split; [done|]. intros Hset. rewrite handleInterrupt_regs.
  unfold rewound. simpl. destruct (SetRegs _ _) as [e2 t2] eqn:Hs.
  apply SetRegs_frame in Hs as (_ & _ & Hr). simpl in *.
  rewrite (Hr Hset). exact Htr.
Qed.

Lemma GetRegs_failure_zeroes_registers_witness :
  t_regs (tracer trap_getregs_fails) = mkRegs 4198401 2147352576 ∧
  snd (fst (GetRegs (tracer trap_getregs_fails)))
    = Some (ErrTracer RegisterAccess) ∧
  t_regs (tracer (snd (handleInterrupt trap_getregs_fails)))
    = mkRegs (2 ^ 64 - 1) 0.
Proof.
  assert (snd (fst (GetRegs (tracer trap_getregs_fails)))
            = Some (ErrTracer RegisterAccess)) as H1
    by (vm_compute; reflexivity).
  destruct (GetRegs_failure_zeroes_registers _ _ H1) as [_ H2].
  split_and!; [reflexivity|exact H1|].
  apply H2. vm_compute. reflexivity.
Defined.

(** X16. From construction on, after any sequence of traps each handled
    without error, the table holds at most as many breakpoints as there are
    regions. *)
Theorem table_size_bound (pid : Z) (pie : PieOffsetter) (rs : list Region)
    (breaks : gmap Z (list byte)) (w : Tracer) (p : Proc)
    (ws : list Tracer) (outs : list (list Event * option error)) (p' : Proc) :
  newTracedProc pid pie rs breaks w = (Some p, None) →
  run ws p = (outs, p') →
  completed outs →
  (size (breakpoints p') ≤ length rs)%nat.
Proof.
  intros Hnew Hrun Hc.
  apply newTracedProc_init in Hnew as (Hinv & _ & Hlen & _).
  destruct (run_armed_inv _ _ _ _ Hrun Hc Hinv) as [Hinv' Hlen'].
  rewrite <-Hlen, <-Hlen', <-(length_fmap curInterrupt).
  rewrite <-(size_dom (D := gset Z)). unfold armed_inv in Hinv'.
  rewrite Hinv'. unfold size, set_size. simpl.
  apply submseteq_length, NoDup_submseteq; [apply NoDup_elements|].
  intros x Hx. by apply elem_of_elements, elem_of_list_to_set in Hx.
Qed.

Lemma table_size_bound_witness :
  newTracedProc 7 pie0 [funcRegion 4198400; addressRegion 4198400 4199168]
    ∅ tracee0 = (Some proc_S3, None) ∧
  snd <$> fst (run traps_S3 proc_S3) = [None] ∧
  size (breakpoints (snd (run traps_S3 proc_S3))) = 2%nat ∧
  (size (breakpoints (snd (run traps_S3 proc_S3))) ≤ 2)%nat.
Proof.
  assert (newTracedProc 7 pie0
            [funcRegion 4198400; addressRegion 4198400 4199168] ∅ tracee0
          = (Some proc_S3, None)) as H
    by (apply newTracedProc_run_ok; vm_compute; reflexivity).
  assert (completed (fst (run traps_S3 proc_S3))) as Hc
    by (vm_compute; repeat constructor).
  split_and!; [exact H|vm_compute; reflexivity|vm_compute; reflexivity|].
  exact (table_size_bound _ _ _ _ _ _ _ _ _ H
           (surjective_pairing (run traps_S3 proc_S3)) Hc).
Defined.

Lemma handleInterrupt_states p out p' :
  Forall (λ r, state r ≠ RegionOther) (regions p) →
  handleInterrupt p = (out, p') →
  Forall (λ r, state r ≠ RegionOther) (regions p').
Proof.
  intros Hp. rewrite handleInterrupt_unfold.
  destruct (rewound_frame p) as (Hr0 & _).
  destruct (removeBreak _ _) as [e1 p1] eqn:Hrm.
  apply removeBreak_frame in Hrm as (Hr1 & _).
  assert (Forall (λ r, state r ≠ RegionOther) (regions p1)) as H1
    by by rewrite Hr1, Hr0.
  destruct e1; [by intros [= _ <-]|].
  apply (loop_preserves
           (λ q, Forall (λ r, state r ≠ RegionOther) (regions q)));
    [| | |done].
  - intros a q e q' Hq Hs. apply setBreak_frame in Hs as (-> & _). done.
  - intros i s q Hs Hq. simpl. apply Forall_alter; [done|]. by intros.
  - intros i a q Hq. simpl. apply Forall_alter; [done|]. by intros.
Qed.

Lemma run_keeps_regions ws : ∀ p outs p',
  run ws p = (outs, p') →
  region <$> regions p' = region <$> regions p ∧
  id <$> regions p' = id <$> regions p ∧
  (Forall (λ r, state r ≠ RegionOther) (regions p) →
   Forall (λ r, state r ≠ RegionOther) (regions p')).
Proof.
  induction ws as [|w ws IH]; intros p outs p'; simpl.
  { by intros [= <- <-]. }
  destruct (handleInterrupt (resume w p)) as [out p1] eqn:Hh.
  destruct (run ws p1) as [outs1 p2] eqn:Hrun.
  intros [= <- <-].
  pose proof (handleInterrupt_keeps_regions _ _ _ Hh) as (_ & _ & Hid & Hreg).
  pose proof (λ H, handleInterrupt_states _ _ _ H Hh) as Hst.
  change (regions (resume w p)) with (regions p) in *.
  destruct (IH _ _ _ Hrun) as (Hreg' & Hid' & Hst').
  split_and!; [congruence|congruence|]. intros H. by apply Hst', Hst.
Qed.

(** X17. From construction on, along every sequence of traps, failed calls
    of [handleInterrupt] included, the active regions stay the regions
    given, in their order and under their ids, and the state of each is
    Start or End: no active region is ever in a state for which the switch
    of [handleInterrupt] returns the invalid state error. *)
Theorem regions_stay_valid (pid : Z) (pie : PieOffsetter) (rs : list Region)
    (breaks : gmap Z (list byte)) (w : Tracer) (p : Proc)
    (ws : list Tracer) (outs : list (list Event * option error)) (p' : Proc) :
  newTracedProc pid pie rs breaks w = (Some p, None) →
  run ws p = (outs, p') →
  region <$> regions p' = rs ∧
  id <$> regions p' = seq 0 (length rs) ∧
  ∀ r, r ∈ regions p' → state r = RegionStart ∨ state r = RegionEnd.
Proof.
  intros Hnew Hrun.
  pose proof (newTracedProc_init _ _ _ _ _ _ Hnew) as (_ & _ & _ & Hst).
  apply newTracedProc_ok in Hnew as (off & _ & Hloop).
  pose proof (new_loop_shape _ _ _ _ _ Hloop) as (Hreg & _).
  apply new_loop_ok in Hloop as (_ & Hid & _). simpl in *.
  destruct (run_keeps_regions _ _ _ _ Hrun) as (Hreg' & Hid' & Hst').
  split_and!; [congruence|congruence|].
  assert (Forall (λ r, state r ≠ RegionOther) (regions p')) as Hall.
  { apply Hst'. apply Forall_forall. intros r Hr. by rewrite (Hst r Hr). }
  intros r Hr. rewrite Forall_forall in Hall. specialize (Hall r Hr).
  destruct (state r); [by left|by right|done].
Qed.

Lemma regions_stay_valid_witness :
  newTracedProc 7 pie0 [funcRegion 4198400] ∅ tracee0 = (Some proc_S1, None) ∧
  snd <$> fst (run [tracer trap_S4] proc_S1) = [Some ErrRegionEndUnresolved] ∧
  state <$> regions (snd (run [tracer trap_S4] proc_S1)) = [RegionEnd] ∧
  id <$> regions (snd (run [tracer trap_S4] proc_S1)) = seq 0 1.
Proof.
  assert (newTracedProc 7 pie0 [funcRegion 4198400] ∅ tracee0
            = (Some proc_S1, None)) as H1
    by (apply newTracedProc_run_ok; vm_compute; reflexivity).
  destruct (regions_stay_valid _ _ _ _ _ _ _ _ _ H1
              (surjective_pairing (run [tracer trap_S4] proc_S1)))
    as (_ & Hid & _).
  split_and!; [exact H1|vm_compute; reflexivity|vm_compute; reflexivity|].
  exact Hid.
Defined.
